(** * winreg: typed helpers over the Windows registry API

    The Go package [winreg] (file [winreg.go]) is a flat set of functions.
    Each one opens a registry key through [golang.org/x/sys/windows/registry],
    performs one typed call on the handle and closes it.

    The definitions come in this order:
    - [Go]       : Go's [error] values and fixed-width integer conversions;
    - [Utf]      : the conversions between Go strings and UTF-16 that the
                   registry library applies to names and string data;
    - [registry] : the signature of the registry API the package calls, as a
                   type of calls indexed by their result type, and programs
                   over that signature (a free monad);
    - [winreg]   : the package itself, one definition per Go function;
    - [Sem]      : running a program against a system, with the trace of
                   the calls made;
    - [RegModel] : an in-memory registry that implements the API;
    - [Fn], [Typed] : the functions of the package as one family, and the
                   reader and writer pairs by value type;
    - [Fixture]  : registries to run examples on.

    Programs are given meaning by a handler, a function that answers every
    API call in a world [W].  Properties of the control flow of the package
    (which call is made, which error is returned, which handle is closed)
    are proved for every handler.  Properties of the registry contents
    (what a read returns after a write) are proved for [RegModel]. *)

From Stdlib Require Import ZArith Lia.
From Stdlib.Strings Require Import Byte Ascii String.
From stdpp Require Import gmap strings list.

Local Open Scope Z_scope.

(** ** Go values *)

Module Go.

(** The non-nil values of Go's [error] that the registry API produces:
    a Windows error number ([syscall.Errno]), or one of the package-level
    errors of [registry] and [io]. *)
Inductive error_val : Type :=
| Errno (code : Z)
| ErrShortBuffer
| ErrUnexpectedType
| EOF
| EINVAL                       (* syscall.EINVAL *)
| ErrorString (msg : string).  (* errors.New(msg) *)

(** [error] is an interface value: [None] is Go's [nil]. *)
Definition error : Type := option error_val.
Definition nil : error := None.

(** [err != nil] *)
Definition neq_nil (err : error) : bool :=
  match err with
  | Some _ => true
  | None => false
  end.

Definition ERROR_FILE_NOT_FOUND : error_val := Errno 2.
Definition ERROR_ACCESS_DENIED : error_val := Errno 5.
Definition ERROR_INVALID_HANDLE : error_val := Errno 6.
Definition ERROR_KEY_DELETED : error_val := Errno 1018.
(** [registry.ErrNotExist] is [syscall.ERROR_FILE_NOT_FOUND]. *)
Definition ErrNotExist : error_val := ERROR_FILE_NOT_FOUND.

(** Integer conversions [T(x)]: the value of [x] wrapped into the range
    of [T]. *)
Definition uint32 (x : Z) : Z := x mod 2 ^ 32.
Definition uint64 (x : Z) : Z := x mod 2 ^ 64.
Definition int32 (x : Z) : Z := (x + 2 ^ 31) mod 2 ^ 32 - 2 ^ 31.
Definition int64 (x : Z) : Z := (x + 2 ^ 63) mod 2 ^ 64 - 2 ^ 63.

Definition is_uint32 (x : Z) : Prop := 0 <= x < 2 ^ 32.
Definition is_uint64 (x : Z) : Prop := 0 <= x < 2 ^ 64.
Definition is_int32 (x : Z) : Prop := - 2 ^ 31 <= x < 2 ^ 31.
Definition is_int64 (x : Z) : Prop := - 2 ^ 63 <= x < 2 ^ 63.

End Go.

(** ** Strings and UTF-16

    The registry keeps names and string data in UTF-16.  The library
    converts a Go string with [syscall.UTF16FromString], which refuses a
    string that holds a NUL byte, and converts back with
    [syscall.UTF16ToString]; lists of strings it converts itself, with
    [utf16.Encode] and [utf16.Decode].  The conversions below are those of
    [unicode/utf8] and [unicode/utf16]: every byte that is not part of a
    well-formed UTF-8 sequence becomes U+FFFD.  (From Go 1.21 on, [syscall]
    departs from them in one case: it keeps the three bytes that encode a
    lone surrogate.  The two agree on valid UTF-8 and on every other
    ill-formed byte.)  Bytes, runes and UTF-16 units are integers. *)

Module Utf.

(** The bytes of a Go string. *)
Definition byte_of (a : ascii) : Z := Z.of_N (N_of_ascii a).
Definition ascii_of (b : Z) : ascii := ascii_of_N (Z.to_N b).

Fixpoint bytes (s : string) : list Z :=
  match s with
  | EmptyString => []
  | String a s' => byte_of a :: bytes s'
  end.

Fixpoint of_bytes (bs : list Z) : string :=
  match bs with
  | [] => EmptyString
  | b :: bs' => String (ascii_of b) (of_bytes bs')
  end.

Definition RuneError : Z := 0xFFFD.
Definition MaxRune : Z := 0x10FFFF.

Definition between (lo hi b : Z) : bool := (lo <=? b) && (b <=? hi).

(** [utf8.DecodeRune] on the bytes [b0 :: t]: the rune and its width. *)
Definition decode_rune (b0 : Z) (t : list Z) : Z * nat :=
  if b0 <? 0x80 then (b0, 1%nat)
  else if between 0xC2 0xDF b0 then
    match t with
    | b1 :: _ =>
        if between 0x80 0xBF b1
        then ((b0 - 0xC0) * 64 + (b1 - 0x80), 2%nat)
        else (RuneError, 1%nat)
    | _ => (RuneError, 1%nat)
    end
  else if between 0xE0 0xEF b0 then
    match t with
    | b1 :: b2 :: _ =>
        if between (if b0 =? 0xE0 then 0xA0 else 0x80)
                   (if b0 =? 0xED then 0x9F else 0xBF) b1
           && between 0x80 0xBF b2
        then ((b0 - 0xE0) * 4096 + (b1 - 0x80) * 64 + (b2 - 0x80), 3%nat)
        else (RuneError, 1%nat)
    | _ => (RuneError, 1%nat)
    end
  else if between 0xF0 0xF4 b0 then
    match t with
    | b1 :: b2 :: b3 :: _ =>
        if between (if b0 =? 0xF0 then 0x90 else 0x80)
                   (if b0 =? 0xF4 then 0x8F else 0xBF) b1
           && between 0x80 0xBF b2 && between 0x80 0xBF b3
        then ((b0 - 0xF0) * 262144 + (b1 - 0x80) * 4096
              + (b2 - 0x80) * 64 + (b3 - 0x80), 4%nat)
        else (RuneError, 1%nat)
    | _ => (RuneError, 1%nat)
    end
  else (RuneError, 1%nat).

(** [[]rune(s)] on the bytes of [s]; [skip] bytes belong to the rune
    decoded last. *)
Fixpoint runes_from (skip : nat) (bs : list Z) : list Z :=
  match bs with
  | [] => []
  | b :: t =>
      match skip with
      | S n => runes_from n t
      | O => let '(r, width) := decode_rune b t in r :: runes_from (width - 1) t
      end
  end.

Definition runes (s : string) : list Z := runes_from 0 (bytes s).

Definition surrogate (r : Z) : bool := between 0xD800 0xDFFF r.

(** [utf8.EncodeRune]. *)
Definition encode_rune (r : Z) : list Z :=
  if (r <? 0) || (MaxRune <? r) || surrogate r then [0xEF; 0xBF; 0xBD]
  else if r <? 0x80 then [r]
  else if r <? 0x800 then [0xC0 + r / 64; 0x80 + r mod 64]
  else if r <? 0x10000 then
    [0xE0 + r / 4096; 0x80 + (r / 64) mod 64; 0x80 + r mod 64]
  else [0xF0 + r / 262144; 0x80 + (r / 4096) mod 64;
        0x80 + (r / 64) mod 64; 0x80 + r mod 64].

(** [string(rs)] for a slice of runes. *)
Definition of_runes (rs : list Z) : string := of_bytes (flat_map encode_rune rs).

(** [string([]rune(s))]: every byte that is not part of a well-formed
    UTF-8 sequence becomes U+FFFD. *)
Definition to_valid (s : string) : string := of_runes (runes s).

(** [utf16.Encode]. *)
Definition utf16_encode_rune (r : Z) : list Z :=
  if (0 <=? r) && (r <? 0x10000) && negb (surrogate r) then [r]
  else if (0x10000 <=? r) && (r <=? MaxRune) then
    [0xD800 + (r - 0x10000) / 1024; 0xDC00 + (r - 0x10000) mod 1024]
  else [RuneError].

Definition utf16_encode (rs : list Z) : list Z := flat_map utf16_encode_rune rs.

(** [utf16.Decode]; [skip] tells that the unit is the second of a pair. *)
Fixpoint utf16_decode_from (skip : bool) (us : list Z) : list Z :=
  match us with
  | [] => []
  | u :: t =>
      if skip then utf16_decode_from false t
      else if surrogate u then
        match t with
        | u2 :: _ =>
            if between 0xD800 0xDBFF u && between 0xDC00 0xDFFF u2
            then ((u - 0xD800) * 1024 + (u2 - 0xDC00) + 0x10000)
                 :: utf16_decode_from true t
            else RuneError :: utf16_decode_from false t
        | [] => RuneError :: utf16_decode_from false t
        end
      else u :: utf16_decode_from false t
  end.

Definition utf16_decode (us : list Z) : list Z := utf16_decode_from false us.

Fixpoint has_nul (s : string) : bool :=
  match s with
  | EmptyString => false
  | String a s' => (byte_of a =? 0) || has_nul s'
  end.

(** [syscall.UTF16FromString], without the terminating NUL: refused when
    the string holds a NUL byte. *)
Definition UTF16FromString (s : string) : option (list Z) :=
  if has_nul s then None else Some (utf16_encode (runes s)).

Fixpoint until_nul (us : list Z) : list Z :=
  match us with
  | [] => []
  | u :: t => if u =? 0 then [] else u :: until_nul t
  end.

(** [syscall.UTF16ToString]: the units up to the first NUL, decoded. *)
Definition UTF16ToString (us : list Z) : string :=
  of_runes (utf16_decode (until_nul us)).

(** The data [SetStringsValue] stores for a list of strings: every string
    followed by a NUL, one more NUL at the end, the whole converted to
    UTF-16.  Refused when a string holds a NUL byte. *)
Definition nul : string := String (ascii_of 0) EmptyString.

Fixpoint joined (l : list string) : string :=
  match l with
  | [] => EmptyString
  | s :: l' => String.append s (String.append nul (joined l'))
  end.

Definition multi_units (l : list string) : option (list Z) :=
  if existsb has_nul l then None
  else Some (utf16_encode (runes (String.append (joined l) nul))).

(** The strings [GetStringsValue] makes of stored data: one terminating
    NUL is removed, then every run of units that ends at a NUL is decoded;
    units after the last NUL are dropped. *)
Definition strip_last_nul (p : list Z) : list Z :=
  match last p with
  | Some u => if u =? 0 then removelast p else p
  | None => p
  end.

Fixpoint split_nul (cur p : list Z) : list (list Z) :=
  match p with
  | [] => []
  | c :: t => if c =? 0 then cur :: split_nul [] t else split_nul (cur ++ [c]) t
  end.

Definition parse_multi (p : list Z) : list string :=
  map (fun piece => of_runes (utf16_decode piece)) (split_nul [] (strip_last_nul p)).

(** The strings the conversion to UTF-16 and back leaves as they are: the
    valid UTF-8 strings. *)
Definition unchanged (s : string) : Prop := to_valid s = s.

(** Unicode scalar values, and the values of a byte. *)
Definition scalar (r : Z) : Prop := 0 <= r < 0xD800 \/ 0xE000 <= r <= 0x10FFFF.
Definition is_byte (b : Z) : Prop := 0 <= b < 256.

End Utf.

(** ** The registry API used by the package *)

Module registry.

Import Go.

(** [registry.Key] is a handle ([syscall.Handle], a [uintptr]). *)
Definition Key : Type := Z.

(** Access rights ([registry.QUERY_VALUE] and the like). *)
Definition QUERY_VALUE : Z := 0x1.
Definition SET_VALUE : Z := 0x2.
Definition CREATE_SUB_KEY : Z := 0x4.
Definition ENUMERATE_SUB_KEYS : Z := 0x8.
Definition NOTIFY : Z := 0x10.
Definition CREATE_LINK : Z := 0x20.
Definition READ : Z := 0x20019.
Definition WRITE : Z := 0x20006.
Definition ALL_ACCESS : Z := 0xf003f.

(** Value types. *)
Definition NONE : Z := 0.
Definition SZ : Z := 1.
Definition EXPAND_SZ : Z := 2.
Definition BINARY : Z := 3.
Definition DWORD : Z := 4.
Definition MULTI_SZ : Z := 7.
Definition QWORD : Z := 11.

(** Predefined roots. *)
Definition CLASSES_ROOT : Key := 0x80000000.
Definition CURRENT_USER : Key := 0x80000001.
Definition LOCAL_MACHINE : Key := 0x80000002.
Definition USERS : Key := 0x80000003.
Definition CURRENT_CONFIG : Key := 0x80000005.

(** The calls [winreg.go] makes, indexed by the type of their results.
    [OpenKey], [CreateKey] and [DeleteKey] are the package-level functions
    [registry.OpenKey], [registry.CreateKey], [registry.DeleteKey]; the
    others are methods of [Key], with the receiver as first argument
    ([Key_DeleteKey k name] is the method call [k.DeleteKey(name)]). *)
Inductive call : Type -> Type :=
| OpenKey (k : Key) (path : string) (access : Z) : call (Key * error)
| CreateKey (k : Key) (path : string) (access : Z) : call (Key * bool * error)
| DeleteKey (k : Key) (path : string) : call error
| Close (k : Key) : call error
| GetDWordValue (k : Key) (name : string) : call (Z * Z * error)
| SetDWordValue (k : Key) (name : string) (value : Z) : call error
| GetQWordValue (k : Key) (name : string) : call (Z * Z * error)
| SetQWordValue (k : Key) (name : string) (value : Z) : call error
| GetIntValue (k : Key) (name : string) : call (Z * Z * error)
| SetIntValue (k : Key) (name : string) (value : Z) : call error
| GetStringValue (k : Key) (name : string) : call (string * Z * error)
| GetExpandStringValue (k : Key) (name : string) : call (string * Z * error)
| SetExpandStringValue (k : Key) (name : string) (value : string) : call error
| GetStringsValue (k : Key) (name : string) : call (list string * Z * error)
| SetStringsValue (k : Key) (name : string) (value : list string) : call error
| GetBinaryValue (k : Key) (name : string) : call (list byte * Z * error)
| SetBinaryValue (k : Key) (name : string) (value : list byte) : call error
| DeleteValue (k : Key) (name : string) : call error
| Key_DeleteKey (k : Key) (name : string) : call error
| ReadSubKeyNames (k : Key) (n : Z) : call (list string * error)
| ReadValueNames (k : Key) (n : Z) : call (list string * error).

(** Programs over the API: return a value, or make a call and continue
    with its result. *)
Inductive prog (A : Type) : Type :=
| Ret (a : A)
| Vis {X : Type} (c : call X) (k : X -> prog A).
Arguments Ret {A} a.
Arguments Vis {A X} c k.

Fixpoint bind {A B : Type} (f : A -> prog B) (p : prog A) : prog B :=
  match p with
  | Ret a => f a
  | Vis c k => Vis c (fun x => bind f (k x))
  end.

(** Make one call. *)
Definition sys {X : Type} (c : call X) : prog X := Vis c Ret.

#[export] Instance prog_ret : MRet prog := @Ret.
#[export] Instance prog_bind : MBind prog := @bind.

(** [defer c] followed by [body]: the deferred call runs when the
    function returns, after the results of [body] are computed; its own
    result is dropped. *)
Definition defer {X A : Type} (c : call X) (body : prog A) : prog A :=
  r ← body; _ ← sys c; mret r.

End registry.

(** ** The package *)

Module winreg.

Import Go.
Import registry.

(** ReadDWordValue reads a DWORD value from the Windows Registry. *)
Definition ReadDWordValue (root : Key) (keyPath valueName : string)
  : prog (Z * error) :=
  '(k, err) ← sys (OpenKey root keyPath QUERY_VALUE);
  if neq_nil err then mret (0, err) else
  defer (Close k) (
    '(value, _, err) ← sys (GetDWordValue k valueName);
    if neq_nil err then mret (0, err) else
    mret (value, nil)).

(** WriteDWordValue writes a DWORD value to the Windows Registry. *)
Definition WriteDWordValue (root : Key) (keyPath valueName : string) (data : Z)
  : prog error :=
  '(k, err) ← sys (OpenKey root keyPath WRITE);
  if neq_nil err then mret err else
  defer (Close k) (
    err ← sys (SetDWordValue k valueName data);
    if neq_nil err then mret err else
    mret nil).

(** ReadBinaryValue reads a binary value from the Windows Registry. *)
Definition ReadBinaryValue (root : Key) (keyPath valueName : string)
  : prog (list byte * error) :=
  '(k, err) ← sys (OpenKey root keyPath QUERY_VALUE);
  if neq_nil err then mret ([], err) else
  defer (Close k) (
    '(value, _, err) ← sys (GetBinaryValue k valueName);
    if neq_nil err then mret ([], err) else
    mret (value, nil)).

(** WriteBinaryValue writes a binary value to the Windows Registry. *)
Definition WriteBinaryValue (root : Key) (keyPath valueName : string)
  (data : list byte) : prog error :=
  '(k, err) ← sys (OpenKey root keyPath WRITE);
  if neq_nil err then mret err else
  defer (Close k) (
    err ← sys (SetBinaryValue k valueName data);
    if neq_nil err then mret err else
    mret nil).

(** DeleteValue deletes a registry value. *)
Definition DeleteValue (root : Key) (keyPath valueName : string) : prog error :=
  '(k, err) ← sys (OpenKey root keyPath WRITE);
  if neq_nil err then mret err else
  defer (Close k) (
    err ← sys (registry.DeleteValue k valueName);
    if neq_nil err then mret err else
    mret nil).

(** DeleteSubKey deletes a registry subkey and all its subkeys and values. *)
Definition DeleteSubKey (root : Key) (keyPath subKeyName : string) : prog error :=
  '(k, err) ← sys (OpenKey root keyPath WRITE);
  if neq_nil err then mret err else
  defer (Close k) (
    err ← sys (Key_DeleteKey k subKeyName);
    if neq_nil err then mret err else
    mret nil).

(** Check if a registry key exists.  The handle is closed by a plain call,
    not a deferred one. *)
Definition KeyExists (root : Key) (keyPath : string) : prog bool :=
  '(k, err) ← sys (OpenKey root keyPath QUERY_VALUE);
  if neq_nil err then mret false else
  _ ← sys (Close k);
  mret true.

(** Check if a registry value exists. *)
Definition ValueExists (root : Key) (keyPath valueName : string) : prog bool :=
  '(k, err) ← sys (OpenKey root keyPath QUERY_VALUE);
  if neq_nil err then mret false else
  defer (Close k) (
    '(_, _, err) ← sys (GetStringValue k valueName);
    mret (negb (neq_nil err))).

(** EnumerateSubKeys returns a list of subkeys under the given key. *)
Definition EnumerateSubKeys (root : Key) (keyPath : string)
  : prog (list string * error) :=
  '(k, err) ← sys (OpenKey root keyPath ENUMERATE_SUB_KEYS);
  if neq_nil err then mret ([], err) else
  defer (Close k) (
    '(subKeys, err) ← sys (ReadSubKeyNames k (-1));
    if neq_nil err then mret ([], err) else
    mret (subKeys, nil)).

(** EnumerateValues returns a list of value names under the given key. *)
Definition EnumerateValues (root : Key) (keyPath : string)
  : prog (list string * error) :=
  '(k, err) ← sys (OpenKey root keyPath QUERY_VALUE);
  if neq_nil err then mret ([], err) else
  defer (Close k) (
    '(valueNames, err) ← sys (ReadValueNames k (-1));
    if neq_nil err then mret ([], err) else
    mret (valueNames, nil)).

(** CreateKey creates a new registry key or opens an existing one.  The
    handle is returned to the caller; there is no call of [Close]. *)
Definition CreateKey (root : Key) (keyPath : string) : prog (Key * error) :=
  '(k, _, err) ← sys (registry.CreateKey root keyPath ALL_ACCESS);
  mret (k, err).

(** ReadStringValueWithDefault reads a string value from the Windows
    Registry with a default value. *)
Definition ReadStringValueWithDefault (root : Key)
  (keyPath valueName defaultValue : string) : prog (string * error) :=
  '(k, err) ← sys (OpenKey root keyPath QUERY_VALUE);
  if neq_nil err then mret (defaultValue, nil) else
  defer (Close k) (
    '(value, _, err) ← sys (GetStringValue k valueName);
    if neq_nil err then mret (defaultValue, nil) else
    mret (value, nil)).

(** ReadMultiStringValue reads a multi-string value from the Windows
    Registry. *)
Definition ReadMultiStringValue (root : Key) (keyPath valueName : string)
  : prog (list string * error) :=
  '(k, err) ← sys (OpenKey root keyPath QUERY_VALUE);
  if neq_nil err then mret ([], err) else
  defer (Close k) (
    '(value, _, err) ← sys (GetStringsValue k valueName);
    if neq_nil err then mret ([], err) else
    mret (value, nil)).

(** WriteMultiStringValue writes a multi-string value to the Windows
    Registry. *)
Definition WriteMultiStringValue (root : Key) (keyPath valueName : string)
  (data : list string) : prog error :=
  '(k, err) ← sys (OpenKey root keyPath WRITE);
  if neq_nil err then mret err else
  defer (Close k) (
    err ← sys (SetStringsValue k valueName data);
    if neq_nil err then mret err else
    mret nil).

(** ReadQWordValue reads a QWORD (64-bit integer) value from the Windows
    Registry. *)
Definition ReadQWordValue (root : Key) (keyPath valueName : string)
  : prog (Z * error) :=
  '(k, err) ← sys (OpenKey root keyPath QUERY_VALUE);
  if neq_nil err then mret (0, err) else
  defer (Close k) (
    '(value, _, err) ← sys (GetQWordValue k valueName);
    if neq_nil err then mret (0, err) else
    mret (value, nil)).

(** WriteQWordValue writes a QWORD (64-bit integer) value to the Windows
    Registry. *)
Definition WriteQWordValue (root : Key) (keyPath valueName : string) (data : Z)
  : prog error :=
  '(k, err) ← sys (OpenKey root keyPath WRITE);
  if neq_nil err then mret err else
  defer (Close k) (
    err ← sys (SetQWordValue k valueName data);
    if neq_nil err then mret err else
    mret nil).

(** ReadExpandStringValue reads an expandable string value (REG_EXPAND_SZ)
    from the Windows Registry. *)
Definition ReadExpandStringValue (root : Key) (keyPath valueName : string)
  : prog (string * error) :=
  '(k, err) ← sys (OpenKey root keyPath QUERY_VALUE);
  if neq_nil err then mret (""%string, err) else
  defer (Close k) (
    '(value, _, err) ← sys (GetExpandStringValue k valueName);
    if neq_nil err then mret (""%string, err) else
    mret (value, nil)).

(** WriteExpandStringValue writes an expandable string value (REG_EXPAND_SZ)
    to the Windows Registry. *)
Definition WriteExpandStringValue (root : Key) (keyPath valueName data : string)
  : prog error :=
  '(k, err) ← sys (OpenKey root keyPath WRITE);
  if neq_nil err then mret err else
  defer (Close k) (
    err ← sys (SetExpandStringValue k valueName data);
    if neq_nil err then mret err else
    mret nil).

(** ReadInt32Value reads a 32-bit integer value from the Windows Registry. *)
Definition ReadInt32Value (root : Key) (keyPath valueName : string)
  : prog (Z * error) :=
  '(k, err) ← sys (OpenKey root keyPath QUERY_VALUE);
  if neq_nil err then mret (0, err) else
  defer (Close k) (
    '(value, _, err) ← sys (GetIntValue k valueName);
    if neq_nil err then mret (0, err) else
    mret (value, nil)).

(** WriteInt32Value writes a 32-bit integer value to the Windows Registry. *)
Definition WriteInt32Value (root : Key) (keyPath valueName : string) (data : Z)
  : prog error :=
  '(k, err) ← sys (OpenKey root keyPath WRITE);
  if neq_nil err then mret err else
  defer (Close k) (
    err ← sys (SetIntValue k valueName data);
    if neq_nil err then mret err else
    mret nil).

(** ReadInt64Value reads a 64-bit integer value from the Windows Registry.
    The value read is an [int32]; the result is its conversion [int64(value)]. *)
Definition ReadInt64Value (root : Key) (keyPath valueName : string)
  : prog (Z * error) :=
  '(k, err) ← sys (OpenKey root keyPath QUERY_VALUE);
  if neq_nil err then mret (0, err) else
  defer (Close k) (
    '(value, _, err) ← sys (GetIntValue k valueName);
    if neq_nil err then mret (0, err) else
    mret (int64 value, nil)).

(** WriteInt64Value writes a 64-bit integer value to the Windows Registry.
    The value handed to the API is the conversion [int32(data)]. *)
Definition WriteInt64Value (root : Key) (keyPath valueName : string) (data : Z)
  : prog error :=
  '(k, err) ← sys (OpenKey root keyPath WRITE);
  if neq_nil err then mret err else
  defer (Close k) (
    err ← sys (SetIntValue k valueName (int32 data));
    if neq_nil err then mret err else
    mret nil).

(** DeleteKey deletes a registry key and all its subkeys and values. *)
Definition DeleteKey (root : Key) (keyPath : string) : prog error :=
  sys (registry.DeleteKey root keyPath).

End winreg.

(** ** Running programs against an operating system *)

Module Sem.

Import Go.
Import registry.

(** A handler answers every API call in a world [W] and gives the next
    world.  Nothing is assumed about it: it stands for any behaviour of the
    operating system. *)
Definition handler (W : Type) : Type := forall X : Type, call X -> W -> X * W.

(** One API call together with the result the system gave. *)
Inductive event : Type :=
| Event {X : Type} (c : call X) (r : X).

Definition trace : Type := list event.

(** [run h p w] runs [p] from the world [w]: the result, the final world and
    the calls made, in order. *)
Fixpoint run {W A : Type} (h : handler W) (p : prog A) (w : W)
  : A * W * trace :=
  match p with
  | Ret a => (a, w, [])
  | Vis c k =>
      let '(r, w1) := h _ c w in
      let '(a, w2, t) := run h (k r) w1 in
      (a, w2, Event c r :: t)
  end.

(** The same without the trace. *)
Fixpoint exec {W A : Type} (h : handler W) (p : prog A) (w : W) : A * W :=
  match p with
  | Ret a => (a, w)
  | Vis c k => let '(r, w1) := h _ c w in exec h (k r) w1
  end.

Definition result {W A : Type} (h : handler W) (p : prog A) (w : W) : A :=
  fst (fst (run h p w)).
Definition final {W A : Type} (h : handler W) (p : prog A) (w : W) : W :=
  snd (fst (run h p w)).
Definition calls {W A : Type} (h : handler W) (p : prog A) (w : W) : trace :=
  snd (run h p w).

(** The error a call reported. *)
Definition err_of {X : Type} (c : call X) : X -> error :=
  match c in call X return X -> error with
  | OpenKey _ _ _ => fun r => snd r
  | CreateKey _ _ _ => fun r => snd r
  | DeleteKey _ _ => fun r => r
  | Close _ => fun r => r
  | GetDWordValue _ _ => fun r => snd r
  | SetDWordValue _ _ _ => fun r => r
  | GetQWordValue _ _ => fun r => snd r
  | SetQWordValue _ _ _ => fun r => r
  | GetIntValue _ _ => fun r => snd r
  | SetIntValue _ _ _ => fun r => r
  | GetStringValue _ _ => fun r => snd r
  | GetExpandStringValue _ _ => fun r => snd r
  | SetExpandStringValue _ _ _ => fun r => r
  | GetStringsValue _ _ => fun r => snd r
  | SetStringsValue _ _ _ => fun r => r
  | GetBinaryValue _ _ => fun r => snd r
  | SetBinaryValue _ _ _ => fun r => r
  | registry.DeleteValue _ _ => fun r => r
  | Key_DeleteKey _ _ => fun r => r
  | ReadSubKeyNames _ _ => fun r => snd r
  | ReadValueNames _ _ => fun r => snd r
  end.

(** The handle an event hands out: a successful [OpenKey] or [CreateKey]. *)
Definition opened (e : event) : option Key :=
  match e with
  | @Event X c r =>
      match c in call X return X -> option Key with
      | OpenKey _ _ _ => fun r => if neq_nil (snd r) then None else Some (fst r)
      | CreateKey _ _ _ =>
          fun r => if neq_nil (snd r) then None else Some (fst (fst r))
      | _ => fun _ => None
      end r
  end.

(** The handle an event releases: a call of [Close]. *)
Definition closed (e : event) : option Key :=
  match e with
  | Event c _ =>
      match c with
      | Close k => Some k
      | _ => None
      end
  end.

(** The access right an event asks for, when it opens or creates a key. *)
Definition requested (e : event) : option Z :=
  match e with
  | Event c _ =>
      match c with
      | OpenKey _ _ access => Some access
      | CreateKey _ _ access => Some access
      | _ => None
      end
  end.

(** Remove one occurrence of a handle. *)
Fixpoint release (k : Key) (l : list Key) : list Key :=
  match l with
  | [] => []
  | k' :: l' => if Z.eqb k k' then l' else k' :: release k l'
  end.

(** The handles held after a trace, starting from the handles [held]:
    every successful open adds its handle, every [Close] removes one. *)
Fixpoint held_after (t : trace) (held : list Key) : list Key :=
  match t with
  | [] => held
  | e :: t' =>
      let held1 := match opened e with Some k => k :: held | None => held end in
      let held2 := match closed e with Some k => release k held1 | None => held1 end in
      held_after t' held2
  end.

(** The error of the first call of a trace that failed, [Close] apart;
    [nil] when none failed. *)
Fixpoint first_error (t : trace) : error :=
  match t with
  | [] => nil
  | e :: t' =>
      match e with
      | Event c r =>
          match closed e with
          | Some _ => first_error t'
          | None => if neq_nil (err_of c r) then err_of c r else first_error t'
          end
      end
  end.

(** The integer an event hands to [SetIntValue]. *)
Definition int_written (e : event) : option Z :=
  match e with
  | Event c _ =>
      match c with
      | SetIntValue _ _ value => Some value
      | _ => None
      end
  end.


(** The calls that can change the registry: creating or deleting a key,
    setting or deleting a value. *)
Definition mutates (e : event) : bool :=
  match e with
  | Event c _ =>
      match c with
      | CreateKey _ _ _ | DeleteKey _ _ | Key_DeleteKey _ _
      | registry.DeleteValue _ _ => true
      | SetDWordValue _ _ _ | SetQWordValue _ _ _ | SetIntValue _ _ _
      | SetExpandStringValue _ _ _ | SetStringsValue _ _ _
      | SetBinaryValue _ _ _ => true
      | _ => false
      end
  end.

(** The calls of a trace other than [Close]. *)
Definition work (t : trace) : trace :=
  filter (fun e => closed e = None) t.

End Sem.

(** ** An in-memory registry

    [RegModel] implements the API on a finite store.  It is the environment
    of the package, not part of it.
    - Names are identified as the system identifies them: after their
      conversion to UTF-16, and by a function [fold] that the store carries
      (Windows compares names without regard to case).  Nothing is assumed
      about [fold]: what is proved holds for every rule of comparison.  Two
      names are the same name when their conversions to UTF-16 and back
      have the same [fold].
    - A key is filed under a predefined root and the folded names of the
      components of its path, and keeps the spelling it was created with.
      A value is a name, as it was first spelled, with typed data; string
      data is kept in UTF-16 units, as the library stores it.
    - A name, a path or a string that holds a NUL byte is refused with
      [EINVAL], the error of [syscall.UTF16FromString].  (Where the library
      converts with [syscall.StringToUTF16Ptr] it panics on such a string;
      the model answers with the error there too.)
    - [OpenKey] of a predefined root with the empty path answers with the
      root itself, as [RegOpenKeyEx] does, and opens no new handle.
    - The caller is granted every right it asks for on an existing key;
      a handle carries the rights it was opened with, and a call through a
      handle that lacks the right it needs is denied.
    - Keys under different roots or paths are different keys: the links of
      the Windows registry from one root into another are left out, and so
      are the limits on the length of names and of data.
    [GetDWordValue], [GetQWordValue], [GetExpandStringValue], [GetIntValue],
    [SetIntValue] and the method [DeleteKey] are called by [winreg.go] and
    are not among the methods of [golang.org/x/sys/windows/registry].  The
    model reads them by their names and their Go types: typed accessors of
    a DWORD, of a QWORD, of an expandable string and of a 32-bit signed
    integer kept in a DWORD, and the deletion of a subkey by name.  What
    rests on this reading is said where it is stated. *)

Module RegModel.

Import Go.
Import registry.
Import Utf.

Inductive regvalue : Type :=
| REG_SZ (u : list Z)
| REG_EXPAND_SZ (u : list Z)
| REG_BINARY (b : list byte)
| REG_DWORD (v : Z)
| REG_MULTI_SZ (u : list Z)
| REG_QWORD (v : Z).

Definition valtype (v : regvalue) : Z :=
  match v with
  | REG_SZ _ => SZ
  | REG_EXPAND_SZ _ => EXPAND_SZ
  | REG_BINARY _ => BINARY
  | REG_DWORD _ => DWORD
  | REG_MULTI_SZ _ => MULTI_SZ
  | REG_QWORD _ => QWORD
  end.

(** What identifies a name: the fold of its conversion to UTF-16 and
    back. *)
Definition name_key (f : string -> string) (name : string) : string :=
  f (to_valid name).

Definition same_name (f : string -> string) (a b : string) : bool :=
  String.eqb (name_key f a) (name_key f b).

(** The values of a key, in the order the system reports them, each under
    the spelling it was created with. *)
Definition values : Type := list (string * regvalue).

Fixpoint lookup_value (f : string -> string) (name : string) (vs : values)
  : option regvalue :=
  match vs with
  | [] => None
  | (n, v) :: vs' =>
      if same_name f name n then Some v else lookup_value f name vs'
  end.

(** Replace the data of [name] where it stands, under the spelling it has,
    or add it at the end. *)
Fixpoint store_value (f : string -> string) (name : string) (v : regvalue)
  (vs : values) : values :=
  match vs with
  | [] => [(to_valid name, v)]
  | (n, v') :: vs' =>
      if same_name f name n then (n, v) :: vs'
      else (n, v') :: store_value f name v vs'
  end.

Fixpoint remove_value (f : string -> string) (name : string) (vs : values)
  : values :=
  match vs with
  | [] => []
  | (n, v) :: vs' =>
      if same_name f name n then remove_value f name vs'
      else (n, v) :: remove_value f name vs'
  end.

Definition value_names (vs : values) : list string := map fst vs.

(** A key of the store: the spelling of its own name and its values. *)
Record keyrec : Type := { k_name : string; k_values : values }.

Definition set_values (vs : values) (rec : keyrec) : keyrec :=
  {| k_name := k_name rec; k_values := vs |}.

(** Where a key is filed: a predefined root and the folded names of the
    components of the path below it. *)
Definition loc : Type := Z * list string.

Record hinfo : Type := { h_loc : loc; h_access : Z }.

Record reg : Type := {
  keys : gmap loc keyrec;
  handles : gmap Z hinfo;
  fold : string -> string
}.

Definition set_keys (ks : gmap loc keyrec) (r : reg) : reg :=
  {| keys := ks; handles := handles r; fold := fold r |}.
Definition set_handles (hs : gmap Z hinfo) (r : reg) : reg :=
  {| keys := keys r; handles := hs; fold := fold r |}.

Definition predefined (k : Key) : bool :=
  (k =? CLASSES_ROOT) || (k =? CURRENT_USER) || (k =? LOCAL_MACHINE)
  || (k =? USERS) || (k =? CURRENT_CONFIG).

(** The key and the rights behind a handle. *)
Definition resolve (k : Key) (r : reg) : option hinfo :=
  match handles r !! k with
  | Some h => Some h
  | None =>
      if predefined k then Some {| h_loc := (k, []); h_access := ALL_ACCESS |}
      else None
  end.

(** A handle that is not in use: above the predefined roots and above every
    open handle. *)
Definition alloc (r : reg) : Key :=
  1 + foldr Z.max CURRENT_CONFIG (map fst (map_to_list (handles r))).

(** The components of a path: the pieces between backslashes, empty pieces
    dropped. *)
Fixpoint components_from (s : string) (cur : string) : list string :=
  match s with
  | EmptyString => if String.eqb cur "" then [] else [cur]
  | String c s' =>
      if Ascii.eqb c "\"%char
      then (if String.eqb cur "" then [] else [cur]) ++ components_from s' ""
      else components_from s' (cur +:+ String c "")
  end.

Definition components (path : string) : list string := components_from path "".

Definition below (f : string -> string) (l : loc) (path : string) : loc :=
  (fst l, snd l ++ map (name_key f) (components path)).

Definition has_access (granted need : Z) : bool :=
  Z.land granted need =? need.

(** [l'] is a direct subkey of [l]: the folded name it is filed under. *)
Fixpoint strip (p q : list string) : option (list string) :=
  match p, q with
  | [], _ => Some q
  | a :: p', b :: q' => if String.eqb a b then strip p' q' else None
  | _ :: _, [] => None
  end.

Definition child_name (l l' : loc) : option string :=
  if fst l =? fst l' then
    match strip (snd l) (snd l') with
    | Some [n] => Some n
    | _ => None
    end
  else None.

(** The names of the subkeys of [l], as they were spelled at creation.  A
    key is filed under the folded name of its own spelling ([make_keys]
    files every key so); an entry of the store for which this does not
    hold is no key of [l]. *)
Definition listed_child (f : string -> string) (l : loc) (kv : loc * keyrec)
  : option string :=
  match child_name l (fst kv) with
  | Some x =>
      if String.eqb (name_key f (k_name (snd kv))) x
      then Some (k_name (snd kv)) else None
  | None => None
  end.

Definition subkey_names (f : string -> string) (l : loc) (ks : gmap loc keyrec)
  : list string :=
  omap (listed_child f l) (map_to_list ks).

(** Create the keys on the way from [base] down the components [comps],
    where they are missing. *)
Fixpoint make_keys (f : string -> string) (root : Z) (base comps : list string)
  (ks : gmap loc keyrec) : gmap loc keyrec :=
  match comps with
  | [] => ks
  | c :: cs =>
      let p := base ++ [name_key f c] in
      let ks1 := match ks !! (root, p) with
                 | Some _ => ks
                 | None => <[(root, p) := {| k_name := to_valid c; k_values := [] |}]> ks
                 end in
      make_keys f root p cs ks1
  end.

(** With [n <= 0] all names, otherwise at most [n] of them, with [io.EOF]
    when there are fewer. *)
Definition read_names (n : Z) (names : list string) : list string * error :=
  if n <=? 0 then (names, nil)
  else if Z.of_nat (length names) <? n then (names, Some EOF)
  else (take (Z.to_nat n) names, nil).

(** *** The API calls on the store *)

(** The registry with one more open handle. *)
Definition opened_reg (k : Key) (l : loc) (access : Z) (r : reg) : reg :=
  set_handles (<[k := {| h_loc := l; h_access := access |}]> (handles r)) r.

(** [RegOpenKeyEx] hands a predefined root back when the path is empty. *)
Definition echoes (k : Key) (path : string) (r : reg) : bool :=
  String.eqb path "" && predefined k && bool_decide (handles r !! k = None).

Definition open_key (k : Key) (path : string) (access : Z) (r : reg)
  : (Key * error) * reg :=
  if has_nul path then ((0, Some EINVAL), r) else
  match resolve k r with
  | None => ((0, Some ERROR_INVALID_HANDLE), r)
  | Some h =>
      let target := below (fold r) (h_loc h) path in
      match keys r !! target with
      | None => ((0, Some ErrNotExist), r)
      | Some _ =>
          if echoes k path r then ((k, nil), r)
          else ((alloc r, nil), opened_reg (alloc r) target access r)
      end
  end.

Definition create_key (k : Key) (path : string) (access : Z) (r : reg)
  : (Key * bool * error) * reg :=
  if has_nul path then ((0, false, Some EINVAL), r) else
  match resolve k r with
  | None => ((0, false, Some ERROR_INVALID_HANDLE), r)
  | Some h =>
      match keys r !! h_loc h with
      | None => ((0, false, Some ERROR_KEY_DELETED), r)
      | Some _ =>
          let target := below (fold r) (h_loc h) path in
          let existing := bool_decide (is_Some (keys r !! target)) in
          let ks := make_keys (fold r) (fst (h_loc h)) (snd (h_loc h))
                      (components path) (keys r) in
          ((alloc r, existing, nil),
           set_keys ks (opened_reg (alloc r) target access r))
      end
  end.

(** A key is deleted by name below a handle; the name cannot be empty and
    the key cannot have subkeys.  The rights of the handle are not looked
    at, as with [RegDeleteKey]. *)
Definition delete_key (k : Key) (path : string) (r : reg) : error * reg :=
  if has_nul path then (Some EINVAL, r) else
  match resolve k r with
  | None => (Some ERROR_INVALID_HANDLE, r)
  | Some h =>
      match components path with
      | [] => (Some ERROR_ACCESS_DENIED, r)
      | _ :: _ =>
          let target := below (fold r) (h_loc h) path in
          match keys r !! target with
          | None => (Some ErrNotExist, r)
          | Some _ =>
              match subkey_names (fold r) target (keys r) with
              | [] => (nil, set_keys (delete target (keys r)) r)
              | _ :: _ => (Some ERROR_ACCESS_DENIED, r)
              end
          end
      end
  end.

Definition close (k : Key) (r : reg) : error * reg :=
  match handles r !! k with
  | Some _ => (nil, set_handles (delete k (handles r)) r)
  | None => if predefined k then (nil, r) else (Some ERROR_INVALID_HANDLE, r)
  end.

(** The key behind a handle that holds the right [need]. *)
Definition key_values (k : Key) (need : Z) (r : reg) : loc * keyrec + error_val :=
  match resolve k r with
  | None => inr ERROR_INVALID_HANDLE
  | Some h =>
      if has_access (h_access h) need then
        match keys r !! h_loc h with
        | None => inr ERROR_KEY_DELETED
        | Some rec => inl (h_loc h, rec)
        end
      else inr ERROR_ACCESS_DENIED
  end.

(** The data stored under [name]. *)
Definition get_value (k : Key) (name : string) (r : reg) : regvalue + error_val :=
  if has_nul name then inr EINVAL else
  match key_values k QUERY_VALUE r with
  | inr e => inr e
  | inl (_, rec) =>
      match lookup_value (fold r) name (k_values rec) with
      | None => inr ErrNotExist
      | Some v => inl v
      end
  end.

Definition set_value (k : Key) (name : string) (v : regvalue) (r : reg)
  : error * reg :=
  if has_nul name then (Some EINVAL, r) else
  match key_values k SET_VALUE r with
  | inr e => (Some e, r)
  | inl (l, rec) =>
      (nil, set_keys (<[l := set_values (store_value (fold r) name v (k_values rec)) rec]>
                        (keys r)) r)
  end.

Definition delete_value (k : Key) (name : string) (r : reg) : error * reg :=
  if has_nul name then (Some EINVAL, r) else
  match key_values k SET_VALUE r with
  | inr e => (Some e, r)
  | inl (l, rec) =>
      match lookup_value (fold r) name (k_values rec) with
      | None => (Some ErrNotExist, r)
      | Some _ =>
          (nil, set_keys (<[l := set_values (remove_value (fold r) name (k_values rec)) rec]>
                            (keys r)) r)
      end
  end.

(** [SetStringValue] and [SetExpandStringValue]: the string is converted
    to UTF-16 and stored with its terminating NUL. *)
Definition set_string (mk : list Z -> regvalue) (k : Key) (name value : string)
  (r : reg) : error * reg :=
  match UTF16FromString value with
  | None => (Some EINVAL, r)
  | Some u => set_value k name (mk (u ++ [0])) r
  end.

Definition set_strings (k : Key) (name : string) (value : list string) (r : reg)
  : error * reg :=
  match multi_units value with
  | None => (Some (ErrorString "string cannot have 0 inside"), r)
  | Some u => set_value k name (REG_MULTI_SZ u) r
  end.

(** A typed read: [pick] selects the data of the expected type. *)
Definition get_typed {A : Type} (zero : A) (pick : regvalue -> option A)
  (k : Key) (name : string) (r : reg) : A * Z * error :=
  match get_value k name r with
  | inr e => (zero, 0, Some e)
  | inl v =>
      match pick v with
      | Some a => (a, valtype v, nil)
      | None => (zero, valtype v, Some ErrUnexpectedType)
      end
  end.

Definition pick_dword (v : regvalue) : option Z :=
  match v with REG_DWORD d => Some d | _ => None end.
Definition pick_qword (v : regvalue) : option Z :=
  match v with REG_QWORD d => Some d | _ => None end.
Definition pick_int (v : regvalue) : option Z :=
  match v with REG_DWORD d => Some (int32 d) | _ => None end.
(** [GetStringValue] accepts both string types. *)
Definition pick_string (v : regvalue) : option string :=
  match v with REG_SZ u | REG_EXPAND_SZ u => Some (UTF16ToString u) | _ => None end.
Definition pick_expand (v : regvalue) : option string :=
  match v with REG_EXPAND_SZ u => Some (UTF16ToString u) | _ => None end.
Definition pick_strings (v : regvalue) : option (list string) :=
  match v with REG_MULTI_SZ u => Some (parse_multi u) | _ => None end.
Definition pick_binary (v : regvalue) : option (list byte) :=
  match v with REG_BINARY b => Some b | _ => None end.

Definition read_value_names (k : Key) (n : Z) (r : reg) : list string * error :=
  match key_values k QUERY_VALUE r with
  | inr e => ([], Some e)
  | inl (_, rec) => read_names n (value_names (k_values rec))
  end.

Definition read_subkey_names (k : Key) (n : Z) (r : reg) : list string * error :=
  match key_values k ENUMERATE_SUB_KEYS r with
  | inr e => ([], Some e)
  | inl (l, _) => read_names n (subkey_names (fold r) l (keys r))
  end.

(** The registry as a handler of the API. *)
Definition os : Sem.handler reg :=
  fun X c =>
    match c in call X return reg -> X * reg with
    | OpenKey k path access => open_key k path access
    | CreateKey k path access => create_key k path access
    | DeleteKey k path => delete_key k path
    | Close k => close k
    | GetDWordValue k name => fun r => (get_typed 0 pick_dword k name r, r)
    | SetDWordValue k name v => set_value k name (REG_DWORD (uint32 v))
    | GetQWordValue k name => fun r => (get_typed 0 pick_qword k name r, r)
    | SetQWordValue k name v => set_value k name (REG_QWORD (uint64 v))
    | GetIntValue k name => fun r => (get_typed 0 pick_int k name r, r)
    | SetIntValue k name v => set_value k name (REG_DWORD (uint32 v))
    | GetStringValue k name => fun r => (get_typed ""%string pick_string k name r, r)
    | GetExpandStringValue k name =>
        fun r => (get_typed ""%string pick_expand k name r, r)
    | SetExpandStringValue k name v => set_string REG_EXPAND_SZ k name v
    | GetStringsValue k name => fun r => (get_typed [] pick_strings k name r, r)
    | SetStringsValue k name v => set_strings k name v
    | GetBinaryValue k name => fun r => (get_typed [] pick_binary k name r, r)
    | SetBinaryValue k name v => set_value k name (REG_BINARY v)
    | registry.DeleteValue k name => delete_value k name
    | Key_DeleteKey k name => delete_key k name
    | ReadSubKeyNames k n => fun r => (read_subkey_names k n r, r)
    | ReadValueNames k n => fun r => (read_value_names k n r, r)
    end.

(** The key a root and a path lead to. *)
Definition locate (root : Key) (keyPath : string) (r : reg) : option loc :=
  if has_nul keyPath then None else
  match resolve root r with
  | None => None
  | Some h => Some (below (fold r) (h_loc h) keyPath)
  end.

(** What the store holds under a root, a path and a value name. *)
Definition stored (root : Key) (keyPath valueName : string) (r : reg)
  : option regvalue :=
  if has_nul valueName then None else
  match locate root keyPath r with
  | None => None
  | Some l =>
      match keys r !! l with
      | None => None
      | Some rec => lookup_value (fold r) valueName (k_values rec)
      end
  end.

(** The handle [OpenKey] answers with for the key [l], and the table of
    open handles it leaves: a new handle, or the predefined root itself. *)
Inductive session (r : reg) (l : loc) (access : Z) : Key -> gmap Z hinfo -> Prop :=
| session_new :
    session r l access (alloc r)
      (<[alloc r := {| h_loc := l; h_access := access |}]> (handles r))
| session_root (k : Key) :
    handles r !! k = None -> predefined k = true -> l = (k, []) ->
    session r l access k (handles r).

End RegModel.

(** ** The functions of the package, as one family *)

Module Fn.

Import Go.
Import registry.

(** One constructor per exported function of [winreg.go], with the
    arguments of the function, indexed by the type of its results. *)
Inductive fn : Type -> Type :=
| F_ReadDWordValue (root : Key) (keyPath valueName : string) : fn (Z * error)
| F_WriteDWordValue (root : Key) (keyPath valueName : string) (data : Z) : fn error
| F_ReadBinaryValue (root : Key) (keyPath valueName : string) : fn (list byte * error)
| F_WriteBinaryValue (root : Key) (keyPath valueName : string) (data : list byte) : fn error
| F_DeleteValue (root : Key) (keyPath valueName : string) : fn error
| F_DeleteSubKey (root : Key) (keyPath subKeyName : string) : fn error
| F_KeyExists (root : Key) (keyPath : string) : fn bool
| F_ValueExists (root : Key) (keyPath valueName : string) : fn bool
| F_EnumerateSubKeys (root : Key) (keyPath : string) : fn (list string * error)
| F_EnumerateValues (root : Key) (keyPath : string) : fn (list string * error)
| F_CreateKey (root : Key) (keyPath : string) : fn (Key * error)
| F_ReadStringValueWithDefault (root : Key) (keyPath valueName defaultValue : string)
  : fn (string * error)
| F_ReadMultiStringValue (root : Key) (keyPath valueName : string) : fn (list string * error)
| F_WriteMultiStringValue (root : Key) (keyPath valueName : string) (data : list string)
  : fn error
| F_ReadQWordValue (root : Key) (keyPath valueName : string) : fn (Z * error)
| F_WriteQWordValue (root : Key) (keyPath valueName : string) (data : Z) : fn error
| F_ReadExpandStringValue (root : Key) (keyPath valueName : string) : fn (string * error)
| F_WriteExpandStringValue (root : Key) (keyPath valueName data : string) : fn error
| F_ReadInt32Value (root : Key) (keyPath valueName : string) : fn (Z * error)
| F_WriteInt32Value (root : Key) (keyPath valueName : string) (data : Z) : fn error
| F_ReadInt64Value (root : Key) (keyPath valueName : string) : fn (Z * error)
| F_WriteInt64Value (root : Key) (keyPath valueName : string) (data : Z) : fn error
| F_DeleteKey (root : Key) (keyPath : string) : fn error.

Definition body {A : Type} (f : fn A) : prog A :=
  match f with
  | F_ReadDWordValue root keyPath valueName =>
      winreg.ReadDWordValue root keyPath valueName
  | F_WriteDWordValue root keyPath valueName data =>
      winreg.WriteDWordValue root keyPath valueName data
  | F_ReadBinaryValue root keyPath valueName =>
      winreg.ReadBinaryValue root keyPath valueName
  | F_WriteBinaryValue root keyPath valueName data =>
      winreg.WriteBinaryValue root keyPath valueName data
  | F_DeleteValue root keyPath valueName =>
      winreg.DeleteValue root keyPath valueName
  | F_DeleteSubKey root keyPath subKeyName =>
      winreg.DeleteSubKey root keyPath subKeyName
  | F_KeyExists root keyPath => winreg.KeyExists root keyPath
  | F_ValueExists root keyPath valueName =>
      winreg.ValueExists root keyPath valueName
  | F_EnumerateSubKeys root keyPath => winreg.EnumerateSubKeys root keyPath
  | F_EnumerateValues root keyPath => winreg.EnumerateValues root keyPath
  | F_CreateKey root keyPath => winreg.CreateKey root keyPath
  | F_ReadStringValueWithDefault root keyPath valueName defaultValue =>
      winreg.ReadStringValueWithDefault root keyPath valueName defaultValue
  | F_ReadMultiStringValue root keyPath valueName =>
      winreg.ReadMultiStringValue root keyPath valueName
  | F_WriteMultiStringValue root keyPath valueName data =>
      winreg.WriteMultiStringValue root keyPath valueName data
  | F_ReadQWordValue root keyPath valueName =>
      winreg.ReadQWordValue root keyPath valueName
  | F_WriteQWordValue root keyPath valueName data =>
      winreg.WriteQWordValue root keyPath valueName data
  | F_ReadExpandStringValue root keyPath valueName =>
      winreg.ReadExpandStringValue root keyPath valueName
  | F_WriteExpandStringValue root keyPath valueName data =>
      winreg.WriteExpandStringValue root keyPath valueName data
  | F_ReadInt32Value root keyPath valueName =>
      winreg.ReadInt32Value root keyPath valueName
  | F_WriteInt32Value root keyPath valueName data =>
      winreg.WriteInt32Value root keyPath valueName data
  | F_ReadInt64Value root keyPath valueName =>
      winreg.ReadInt64Value root keyPath valueName
  | F_WriteInt64Value root keyPath valueName data =>
      winreg.WriteInt64Value root keyPath valueName data
  | F_DeleteKey root keyPath => winreg.DeleteKey root keyPath
  end.

(** The handles among the results of a function: the key [CreateKey]
    returns when it reports no error.  No other function has a [Key] among
    its results. *)
Definition handed_out {A : Type} (f : fn A) : A -> list Key :=
  match f in fn A return A -> list Key with
  | F_CreateKey _ _ => fun res => if neq_nil (snd res) then [] else [fst res]
  | _ => fun _ => []
  end.

(** How the operations are grouped when access rights are discussed. *)
Inductive group : Type :=
| TypedReader
| TypedWriter
| ExistenceCheck
| ValueEnumeration
| SubKeyEnumeration
| DeleteThroughHandle
| KeyCreation
| DirectKeyDeletion.

Definition group_of {A : Type} (f : fn A) : group :=
  match f with
  | F_ReadDWordValue _ _ _ | F_ReadBinaryValue _ _ _
  | F_ReadStringValueWithDefault _ _ _ _ | F_ReadMultiStringValue _ _ _
  | F_ReadQWordValue _ _ _ | F_ReadExpandStringValue _ _ _
  | F_ReadInt32Value _ _ _ | F_ReadInt64Value _ _ _ => TypedReader
  | F_WriteDWordValue _ _ _ _ | F_WriteBinaryValue _ _ _ _
  | F_WriteMultiStringValue _ _ _ _ | F_WriteQWordValue _ _ _ _
  | F_WriteExpandStringValue _ _ _ _ | F_WriteInt32Value _ _ _ _
  | F_WriteInt64Value _ _ _ _ => TypedWriter
  | F_KeyExists _ _ | F_ValueExists _ _ _ => ExistenceCheck
  | F_EnumerateValues _ _ => ValueEnumeration
  | F_EnumerateSubKeys _ _ => SubKeyEnumeration
  | F_DeleteValue _ _ _ | F_DeleteSubKey _ _ _ => DeleteThroughHandle
  | F_CreateKey _ _ => KeyCreation
  | F_DeleteKey _ _ => DirectKeyDeletion
  end.

(** The right each group is said to open its key with; [DeleteKey] opens
    no key. *)
Definition right_of (g : group) : option Z :=
  match g with
  | TypedReader | ExistenceCheck | ValueEnumeration => Some QUERY_VALUE
  | TypedWriter | DeleteThroughHandle => Some WRITE
  | SubKeyEnumeration => Some ENUMERATE_SUB_KEYS
  | KeyCreation => Some ALL_ACCESS
  | DirectKeyDeletion => None
  end.

(** The groups that only look at the registry. *)
Definition read_only (g : group) : bool :=
  match g with
  | TypedReader | ExistenceCheck | ValueEnumeration | SubKeyEnumeration => true
  | TypedWriter | DeleteThroughHandle | KeyCreation | DirectKeyDeletion => false
  end.

(** What a function does with the errors of the system. *)
Inductive policy : Type :=
| Propagates     (* has an [error] result *)
| Defaults       (* has an [error] result, turns failure into a default *)
| Answers.       (* has a [bool] result only *)

Definition policy_of {A : Type} (f : fn A) : policy :=
  match f with
  | F_ReadStringValueWithDefault _ _ _ _ => Defaults
  | F_KeyExists _ _ | F_ValueExists _ _ _ => Answers
  | _ => Propagates
  end.

(** The [error] among the results of a function, when it has one. *)
Definition returned_error {A : Type} (f : fn A) : A -> option error :=
  match f in fn A return A -> option error with
  | F_ReadDWordValue _ _ _ => fun res => Some (snd res)
  | F_WriteDWordValue _ _ _ _ => fun res => Some res
  | F_ReadBinaryValue _ _ _ => fun res => Some (snd res)
  | F_WriteBinaryValue _ _ _ _ => fun res => Some res
  | F_DeleteValue _ _ _ => fun res => Some res
  | F_DeleteSubKey _ _ _ => fun res => Some res
  | F_KeyExists _ _ => fun _ => None
  | F_ValueExists _ _ _ => fun _ => None
  | F_EnumerateSubKeys _ _ => fun res => Some (snd res)
  | F_EnumerateValues _ _ => fun res => Some (snd res)
  | F_CreateKey _ _ => fun res => Some (snd res)
  | F_ReadStringValueWithDefault _ _ _ _ => fun res => Some (snd res)
  | F_ReadMultiStringValue _ _ _ => fun res => Some (snd res)
  | F_WriteMultiStringValue _ _ _ _ => fun res => Some res
  | F_ReadQWordValue _ _ _ => fun res => Some (snd res)
  | F_WriteQWordValue _ _ _ _ => fun res => Some res
  | F_ReadExpandStringValue _ _ _ => fun res => Some (snd res)
  | F_WriteExpandStringValue _ _ _ _ => fun res => Some res
  | F_ReadInt32Value _ _ _ => fun res => Some (snd res)
  | F_WriteInt32Value _ _ _ _ => fun res => Some res
  | F_ReadInt64Value _ _ _ => fun res => Some (snd res)
  | F_WriteInt64Value _ _ _ _ => fun res => Some res
  | F_DeleteKey _ _ => fun res => Some res
  end.

End Fn.

(** ** The typed reader and writer pairs *)

Module Typed.

Import Go.
Import registry.
Import Utf.

(** The value types for which the package has both a writer and a reader.
    There is no writer of plain strings, and the only reader of plain
    strings is [ReadStringValueWithDefault]. *)
Inductive kind : Type :=
| KDWord
| KQWord
| KBinary
| KMultiString
| KExpandString
| KInt32
| KInt64.

(** The Go type of the data. *)
Definition carrier (k : kind) : Type :=
  match k with
  | KDWord | KQWord | KInt32 | KInt64 => Z
  | KBinary => list byte
  | KMultiString => list string
  | KExpandString => string
  end.

(** The values a round trip can keep: the values of the Go type and, for
    strings, those that the conversion to UTF-16 and back leaves as they
    are. *)
Definition in_range (k : kind) : carrier k -> Prop :=
  match k with
  | KDWord => is_uint32
  | KQWord => is_uint64
  | KInt32 => is_int32
  | KInt64 => is_int64
  | KBinary => fun _ => True
  | KMultiString => Forall unchanged
  | KExpandString => unchanged
  end.


Definition writer (k : kind) (root : Key) (keyPath valueName : string)
  : carrier k -> prog error :=
  match k with
  | KDWord => winreg.WriteDWordValue root keyPath valueName
  | KQWord => winreg.WriteQWordValue root keyPath valueName
  | KBinary => winreg.WriteBinaryValue root keyPath valueName
  | KMultiString => winreg.WriteMultiStringValue root keyPath valueName
  | KExpandString => winreg.WriteExpandStringValue root keyPath valueName
  | KInt32 => winreg.WriteInt32Value root keyPath valueName
  | KInt64 => winreg.WriteInt64Value root keyPath valueName
  end.

Definition reader (k : kind) (root : Key) (keyPath valueName : string)
  : prog (carrier k * error) :=
  match k with
  | KDWord => winreg.ReadDWordValue root keyPath valueName
  | KQWord => winreg.ReadQWordValue root keyPath valueName
  | KBinary => winreg.ReadBinaryValue root keyPath valueName
  | KMultiString => winreg.ReadMultiStringValue root keyPath valueName
  | KExpandString => winreg.ReadExpandStringValue root keyPath valueName
  | KInt32 => winreg.ReadInt32Value root keyPath valueName
  | KInt64 => winreg.ReadInt64Value root keyPath valueName
  end.



(** The data the writer of a kind puts in the store of [RegModel], when
    the library takes it, and the result the reader of the kind draws from
    stored data. *)
Definition written (k : kind) : carrier k -> option RegModel.regvalue :=
  match k with
  | KDWord => fun v => Some (RegModel.REG_DWORD (uint32 v))
  | KQWord => fun v => Some (RegModel.REG_QWORD (uint64 v))
  | KBinary => fun v => Some (RegModel.REG_BINARY v)
  | KMultiString => fun v => option_map RegModel.REG_MULTI_SZ (multi_units v)
  | KExpandString =>
      fun v => option_map (fun u => RegModel.REG_EXPAND_SZ (u ++ [0]))
                 (UTF16FromString v)
  | KInt32 => fun v => Some (RegModel.REG_DWORD (uint32 v))
  | KInt64 => fun v => Some (RegModel.REG_DWORD (uint32 (int32 v)))
  end.

Definition zero (k : kind) : carrier k :=
  match k with
  | KDWord | KQWord | KInt32 | KInt64 => 0
  | KBinary => []
  | KMultiString => []
  | KExpandString => ""%string
  end.

Definition read_back (k : kind) (v : RegModel.regvalue) : option (carrier k) :=
  match k with
  | KDWord => RegModel.pick_dword v
  | KQWord => RegModel.pick_qword v
  | KBinary => RegModel.pick_binary v
  | KMultiString => RegModel.pick_strings v
  | KExpandString => RegModel.pick_expand v
  | KInt32 => RegModel.pick_int v
  | KInt64 => option_map int64 (RegModel.pick_int v)
  end.

End Typed.

(** ** A registry to run examples on *)

Module Fixture.

Import registry.
Import RegModel.
Import Utf.

(** Names without regard to the case of the letters a to z. *)
Definition upper_ascii (a : ascii) : ascii :=
  if between 97 122 (byte_of a) then ascii_of (byte_of a - 32) else a.

Fixpoint upper (s : string) : string :=
  match s with
  | EmptyString => EmptyString
  | String a s' => String (upper_ascii a) (upper s')
  end.

Definition root_key : keyrec := {| k_name := ""; k_values := [] |}.

(** The predefined roots, empty, and no open handle. *)
Definition boot : reg :=
  {| keys := list_to_map
       (map (fun k => ((k, []), root_key))
            [CLASSES_ROOT; CURRENT_USER; LOCAL_MACHINE; USERS; CURRENT_CONFIG]);
     handles := ∅;
     fold := upper |}.

Definition test_path : string := "Software\gowinreg\Test".

(** The UTF-16 data of a string, with its terminating NUL. *)
Definition sz (s : string) : list Z := utf16_encode (runes s) ++ [0].

(** [boot] with the key [test_path] under [CURRENT_USER], holding a DWORD
    named [count] and a string named [title]. *)
Definition test_reg : reg :=
  {| keys := <[(CURRENT_USER, ["SOFTWARE"; "GOWINREG"; "TEST"]) :=
                 {| k_name := "Test";
                    k_values := [("count", REG_DWORD 7); ("title", REG_SZ (sz "winreg"))] |}]>
             (<[(CURRENT_USER, ["SOFTWARE"; "GOWINREG"]) :=
                  {| k_name := "gowinreg"; k_values := [] |}]>
              (<[(CURRENT_USER, ["SOFTWARE"]) :=
                   {| k_name := "Software"; k_values := [] |}]> (keys boot)));
     handles := ∅;
     fold := upper |}%string.

(** [WriteDWordValue] with the right it asks for as a parameter. *)
Definition write_dword_with (access : Z) (root : Key) (keyPath valueName : string)
  (data : Z) : prog Go.error :=
  '(k, err) ← sys (OpenKey root keyPath access);
  if Go.neq_nil err then mret err else
  defer (Close k) (
    err ← sys (SetDWordValue k valueName data);
    if Go.neq_nil err then mret err else
    mret Go.nil).

(** A system on which every call fails with "access denied" and hands out
    no handle. *)
Definition denied : Sem.handler unit :=
  fun X c w =>
    (match c in call X return X with
     | OpenKey _ _ _ => (0, Some Go.ERROR_ACCESS_DENIED)
     | CreateKey _ _ _ => (0, false, Some Go.ERROR_ACCESS_DENIED)
     | DeleteKey _ _ => Some Go.ERROR_ACCESS_DENIED
     | Close _ => Some Go.ERROR_ACCESS_DENIED
     | GetDWordValue _ _ => (0, 0, Some Go.ERROR_ACCESS_DENIED)
     | SetDWordValue _ _ _ => Some Go.ERROR_ACCESS_DENIED
     | GetQWordValue _ _ => (0, 0, Some Go.ERROR_ACCESS_DENIED)
     | SetQWordValue _ _ _ => Some Go.ERROR_ACCESS_DENIED
     | GetIntValue _ _ => (0, 0, Some Go.ERROR_ACCESS_DENIED)
     | SetIntValue _ _ _ => Some Go.ERROR_ACCESS_DENIED
     | GetStringValue _ _ => (""%string, 0, Some Go.ERROR_ACCESS_DENIED)
     | GetExpandStringValue _ _ => (""%string, 0, Some Go.ERROR_ACCESS_DENIED)
     | SetExpandStringValue _ _ _ => Some Go.ERROR_ACCESS_DENIED
     | GetStringsValue _ _ => ([], 0, Some Go.ERROR_ACCESS_DENIED)
     | SetStringsValue _ _ _ => Some Go.ERROR_ACCESS_DENIED
     | GetBinaryValue _ _ => ([], 0, Some Go.ERROR_ACCESS_DENIED)
     | SetBinaryValue _ _ _ => Some Go.ERROR_ACCESS_DENIED
     | registry.DeleteValue _ _ => Some Go.ERROR_ACCESS_DENIED
     | Key_DeleteKey _ _ => Some Go.ERROR_ACCESS_DENIED
     | ReadSubKeyNames _ _ => ([], Some Go.ERROR_ACCESS_DENIED)
     | ReadValueNames _ _ => ([], Some Go.ERROR_ACCESS_DENIED)
     end, w).

End Fixture.

(** * Properties that hold whatever the system answers *)

Import Go.
Import registry.
Import Sem.
Import Fn.

Lemma run_exec {W A : Type} (h : handler W) (p : prog A) (w : W) :
  fst (run h p w) = exec h p w.
Proof.
  revert w. induction p as [a|X c k IH]; intros w; cbn; [reflexivity|].
  destruct (h X c w) as [r w1]. specialize (IH r w1).
  destruct (run h (k r) w1) as [[a w2] t]. exact IH.
Qed.

Lemma result_exec {W A : Type} (h : handler W) (p : prog A) (w : W) :
  result h p w = fst (exec h p w).
Proof. unfold result. rewrite run_exec. reflexivity. Qed.

Lemma final_exec {W A : Type} (h : handler W) (p : prog A) (w : W) :
  final h p w = snd (exec h p w).
Proof. unfold final. rewrite run_exec. reflexivity. Qed.

(** Case analysis on the answer of the handler to the next call. *)
Ltac answer h :=
  match goal with
  | |- context [h ?X ?c ?w] =>
      let r := fresh "r" in
      let w1 := fresh "w" in
      destruct (h X c w) as [r w1];
      repeat match goal with
             | x : (_ * _)%type |- _ => destruct x
             end;
      repeat match goal with
             | e : error |- _ => destruct e
             end;
      cbn
  end.

Ltac run_all h := unfold result, calls, final; cbn; repeat answer h.

(** C2, as amended.  Whatever the system answers, the handles a function
    has opened and not closed when it returns are exactly the handles among
    its results: none for every function but [CreateKey], and for
    [CreateKey] the key it returns when the creation succeeded. *)
Theorem handles_released_or_returned
  (W : Type) (h : handler W) (w : W) (A : Type) (f : fn A) :
  held_after (calls h (body f) w) [] = handed_out f (result h (body f) w).
Proof.
  destruct f; run_all h; rewrite ?Z.eqb_refl; reflexivity.
Qed.

(** C2 fails for [CreateKey]: on the registry [boot] it opens the handle
    2147483654, returns it with a nil error, never closes it, and the handle
    is still in the table of open handles afterwards. *)
Lemma CreateKey_leaves_handle_open :
  let p := body (F_CreateKey CURRENT_USER Fixture.test_path) in
  result RegModel.os p Fixture.boot = (2147483654, nil) /\
  held_after (calls RegModel.os p Fixture.boot) [] = [2147483654] /\
  held_after (calls RegModel.os p Fixture.boot) [] <> [] /\
  omap closed (calls RegModel.os p Fixture.boot) = [] /\
  is_Some (RegModel.handles (final RegModel.os p Fixture.boot) !! 2147483654).
Proof.
  cbv zeta. split; [vm_compute; reflexivity|].
  split; [vm_compute; reflexivity|].
  split; [vm_compute; discriminate|].
  split; [vm_compute; reflexivity|].
  vm_compute. eexists. reflexivity.
Qed.

(** C7, as amended.  Whatever the system answers, a function asks for a
    key at most once, with the right of its group: the query right for the
    typed readers, the existence checks and the enumeration of values, the
    write right for the typed writers and for [DeleteValue] and
    [DeleteSubKey], the enumerate-subkeys right for [EnumerateSubKeys],
    all-access for [CreateKey]; [DeleteKey] asks for no key.  All-access
    is requested by [CreateKey] only.  (Nothing is said of these rights
    being the narrowest that would do.) *)
Theorem access_right_of_each_function
  (W : Type) (h : handler W) (w : W) (A : Type) (f : fn A) :
  omap requested (calls h (body f) w) = option_list (right_of (group_of f)) /\
  (group_of f = KeyCreation \/ ALL_ACCESS ∉ omap requested (calls h (body f) w)).
Proof.
  split.
  - destruct f; run_all h; reflexivity.
  - destruct f; try (left; reflexivity); right; run_all h;
      intros Hin; repeat (apply elem_of_cons in Hin as [Hin|Hin]; [discriminate|]);
      inversion Hin.
Qed.

(** C7 fails as stated.  The write right is not the narrowest right a
    typed writer needs: [WriteDWordValue] asks for [WRITE], the right to
    set values is a part of it and not the whole, and the same write
    through a key opened with that right alone reports no error and stores
    the value.  And not every function opens a key: [DeleteKey] deletes a
    key and asks for none. *)
Lemma WRITE_is_not_the_narrowest_right :
  let w := winreg.WriteDWordValue CURRENT_USER Fixture.test_path "count" 9 in
  let w' := Fixture.write_dword_with SET_VALUE CURRENT_USER Fixture.test_path "count" 9 in
  omap requested (calls RegModel.os w Fixture.test_reg) = [WRITE] /\
  Z.land WRITE SET_VALUE = SET_VALUE /\
  SET_VALUE <> WRITE /\
  omap requested (calls RegModel.os w' Fixture.test_reg) = [SET_VALUE] /\
  result RegModel.os w' Fixture.test_reg = nil /\
  RegModel.stored CURRENT_USER Fixture.test_path "count"
    (final RegModel.os w' Fixture.test_reg) = Some (RegModel.REG_DWORD 9) /\
  result RegModel.os (winreg.DeleteKey CURRENT_USER Fixture.test_path) Fixture.test_reg
  = nil /\
  omap requested
    (calls RegModel.os (winreg.DeleteKey CURRENT_USER Fixture.test_path) Fixture.test_reg)
  = [].
Proof.
  cbv zeta. repeat (split; [vm_compute; first [reflexivity | discriminate]|]).
  vm_compute. reflexivity.
Qed.

(** C8.  Whatever the system answers, a function with an [error] result
    other than [ReadStringValueWithDefault] returns the very error of the
    first call that failed (open, create, get, set, delete or enumerate),
    and nil when none failed; it makes at most two such calls, so nothing
    is tried again.  [ReadStringValueWithDefault] always returns nil, and
    [KeyExists] and [ValueExists] have no [error] result. *)
Theorem errors_are_passed_through
  (W : Type) (h : handler W) (w : W) (A : Type) (f : fn A) :
  returned_error f (result h (body f) w) =
    match policy_of f with
    | Propagates => Some (first_error (calls h (body f) w))
    | Defaults => Some nil
    | Answers => None
    end /\
  (length (work (calls h (body f) w)) <= 2)%nat.
Proof.
  split.
  - destruct f; run_all h; reflexivity.
  - destruct f; run_all h; vm_compute; lia.
Qed.

(** C3, first half of the proof: for every system, the function returns
    the default with nil when the open or the read fails, and the string
    read with nil otherwise. *)
Lemma ReadStringValueWithDefault_any_system
  (W : Type) (h : handler W) (w : W) (root : Key)
  (keyPath valueName defaultValue : string) :
  result h (winreg.ReadStringValueWithDefault root keyPath valueName defaultValue) w =
    match h _ (OpenKey root keyPath QUERY_VALUE) w with
    | ((_, Some _), _) => (defaultValue, nil)
    | ((k, None), w1) =>
        match h _ (GetStringValue k valueName) w1 with
        | ((_, _, Some _), _) => (defaultValue, nil)
        | ((value, _, None), _) => (value, nil)
        end
    end.
Proof. run_all h; reflexivity. Qed.

Lemma ValueExists_any_system
  (W : Type) (h : handler W) (w : W) (root : Key) (keyPath valueName : string) :
  result h (winreg.ValueExists root keyPath valueName) w =
    match h _ (OpenKey root keyPath QUERY_VALUE) w with
    | ((_, Some _), _) => false
    | ((k, None), w1) =>
        match h _ (GetStringValue k valueName) w1 with
        | ((_, _, Some _), _) => false
        | ((_, _, None), _) => true
        end
    end.
Proof. run_all h; reflexivity. Qed.

Lemma WriteInt64Value_any_system
  (W : Type) (h : handler W) (w : W) (root : Key) (keyPath valueName : string)
  (data : Z) :
  omap int_written (calls h (winreg.WriteInt64Value root keyPath valueName data) w) =
    match h _ (OpenKey root keyPath WRITE) w with
    | ((_, Some _), _) => []
    | ((_, None), _) => [int32 data]
    end.
Proof. run_all h; reflexivity. Qed.

Lemma ReadInt64Value_any_system
  (W : Type) (h : handler W) (w : W) (root : Key) (keyPath valueName : string) :
  result h (winreg.ReadInt64Value root keyPath valueName) w =
    match h _ (OpenKey root keyPath QUERY_VALUE) w with
    | ((_, Some e), _) => (0, Some e)
    | ((k, None), w1) =>
        match h _ (GetIntValue k valueName) w1 with
        | ((_, _, Some e), _) => (0, Some e)
        | ((value, _, None), _) => (int64 value, nil)
        end
    end.
Proof. run_all h; reflexivity. Qed.

(** ** Integer conversions *)

Lemma int32_range (x : Z) : is_int32 (int32 x).
Proof.
  unfold is_int32, int32.
  pose proof (Z.mod_pos_bound (x + 2 ^ 31) (2 ^ 32) ltac:(lia)). lia.
Qed.

Lemma int32_id (x : Z) : is_int32 x -> int32 x = x.
Proof. unfold is_int32, int32. intros H. rewrite Z.mod_small by lia. lia. Qed.

Lemma int32_fixed (x : Z) : int32 x = x -> is_int32 x.
Proof. intros <-. apply int32_range. Qed.

Lemma int32_uint32 (x : Z) : int32 (uint32 x) = int32 x.
Proof. unfold int32, uint32. rewrite Zplus_mod_idemp_l. reflexivity. Qed.

Lemma int64_of_int32 (x : Z) : is_int32 x -> int64 x = x.
Proof. unfold is_int32, int64. intros H. rewrite Z.mod_small by lia. lia. Qed.

Lemma uint32_id (x : Z) : is_uint32 x -> uint32 x = x.
Proof. unfold is_uint32, uint32. intros H. apply Z.mod_small. lia. Qed.

Lemma uint64_id (x : Z) : is_uint64 x -> uint64 x = x.
Proof. unfold is_uint64, uint64. intros H. apply Z.mod_small. lia. Qed.

(** * Conversions of strings *)

Import Utf.

Ltac unbool :=
  repeat match goal with
         | H : _ && _ = true |- _ => apply andb_prop in H as [? ?]
         | H : _ || _ = false |- _ => apply orb_false_elim in H as [? ?]
         | H : _ && _ = false |- _ => apply andb_false_iff in H as [?|?]
         | H : _ || _ = true |- _ => apply orb_true_iff in H as [?|?]
         | H : (_ <=? _) = true |- _ => apply Z.leb_le in H
         | H : (_ <=? _) = false |- _ => apply Z.leb_gt in H
         | H : (_ <? _) = true |- _ => apply Z.ltb_lt in H
         | H : (_ <? _) = false |- _ => apply Z.ltb_ge in H
         | H : (_ =? _) = true |- _ => apply Z.eqb_eq in H
         | H : (_ =? _) = false |- _ => apply Z.eqb_neq in H
         | H : negb _ = true |- _ => apply negb_true_iff in H
         | H : negb _ = false |- _ => apply negb_false_iff in H
         end.

Ltac split_ifs :=
  repeat match goal with
         | |- context [if ?c then _ else _] =>
             let E := fresh "E" in destruct c eqn:E
         | H : context [if ?c then _ else _] |- _ =>
             let E := fresh "E" in destruct c eqn:E
         end.

Lemma byte_of_range (a : ascii) : is_byte (byte_of a).
Proof.
  unfold is_byte, byte_of. pose proof (N_ascii_bounded a) as H. lia.
Qed.

Lemma bytes_range (s : string) : Forall is_byte (bytes s).
Proof. induction s; constructor; [apply byte_of_range|assumption]. Qed.

Lemma of_bytes_bytes (s : string) : of_bytes (bytes s) = s.
Proof.
  induction s as [|a s IH]; cbn; [reflexivity|]. rewrite IH. f_equal.
  unfold ascii_of, byte_of. rewrite N2Z.id. apply ascii_N_embedding.
Qed.

Lemma bytes_of_bytes (bs : list Z) : Forall is_byte bs -> bytes (of_bytes bs) = bs.
Proof.
  induction 1 as [|b bs Hb _ IH]; cbn; [reflexivity|]. rewrite IH. f_equal.
  unfold ascii_of, byte_of, is_byte in *. rewrite N_ascii_embedding; lia.
Qed.

Lemma decode_rune_scalar (b0 : Z) (t : list Z) :
  is_byte b0 -> scalar (fst (decode_rune b0 t)).
Proof.
  unfold is_byte, scalar, decode_rune, between, RuneError. intros Hb.
  destruct t as [|b1 [|b2 [|b3 t]]]; split_ifs; cbn; unbool; lia.
Qed.

Lemma runes_from_scalar (bs : list Z) (skip : nat) :
  Forall is_byte bs -> Forall scalar (runes_from skip bs).
Proof.
  intros H. revert skip. induction H as [|b bs Hb _ IH]; intros skip; cbn.
  - constructor.
  - destruct skip; [|apply IH].
    pose proof (decode_rune_scalar b bs Hb) as Hs.
    destruct (decode_rune b bs) as [r w]. constructor; [exact Hs|apply IH].
Qed.

Lemma encode_rune_bytes (r : Z) : Forall is_byte (encode_rune r).
Proof.
  unfold encode_rune, is_byte, MaxRune, surrogate, between.
  split_ifs; unbool; repeat constructor; try lia;
    Z.to_euclidean_division_equations; lia.
Qed.

Ltac decide_cmp :=
  repeat (match goal with
          | |- context [?a <=? ?b] =>
              first [rewrite (proj2 (Z.leb_le a b)) by lia
                    |rewrite (proj2 (Z.leb_gt a b)) by lia]
          | |- context [?a <? ?b] =>
              first [rewrite (proj2 (Z.ltb_lt a b)) by lia
                    |rewrite (proj2 (Z.ltb_ge a b)) by lia]
          | |- context [?a =? ?b] =>
              first [rewrite (proj2 (Z.eqb_eq a b)) by lia
                    |rewrite (proj2 (Z.eqb_neq a b)) by lia
                    |destruct (Z.eqb_spec a b)]
          end; cbn [andb orb negb]).

Ltac Zify.zify_post_hook ::= Z.to_euclidean_division_equations.

Lemma decode_encode_rune (r : Z) (rest : list Z) :
  scalar r ->
  exists b0 t, encode_rune r = b0 :: t /\
    decode_rune b0 (t ++ rest) = (r, S (length t)).
Proof.
  unfold scalar, encode_rune, MaxRune, surrogate, between. intros Hr.
  split_ifs; unbool; try lia; eexists _, _; (split; [reflexivity|]);
    cbn [app length]; unfold decode_rune, between;
    decide_cmp; f_equal; lia.
Qed.

Lemma skip_bytes (a rest : list Z) :
  runes_from (length a) (a ++ rest) = runes_from 0 rest.
Proof. induction a as [|b a IH]; cbn; [reflexivity|exact IH]. Qed.

Lemma runes_from_encode (rs rest : list Z) :
  Forall scalar rs ->
  runes_from 0 (flat_map encode_rune rs ++ rest) = rs ++ runes_from 0 rest.
Proof.
  induction 1 as [|r rs Hr _ IH]; cbn [flat_map]; [reflexivity|].
  rewrite <- app_assoc.
  destruct (decode_encode_rune r (flat_map encode_rune rs ++ rest) Hr)
    as (b0 & t & -> & H).
  cbn [app runes_from]. rewrite H. cbn [Nat.sub]. rewrite Nat.sub_0_r.
  rewrite skip_bytes, IH. reflexivity.
Qed.

Lemma runes_of_runes (rs : list Z) : Forall scalar rs -> runes (of_runes rs) = rs.
Proof.
  intros H. unfold runes, of_runes. rewrite bytes_of_bytes.
  - rewrite <- (app_nil_r (flat_map encode_rune rs)).
    rewrite runes_from_encode by exact H. apply app_nil_r.
  - apply Forall_flat_map. apply Forall_forall. intros r _. apply encode_rune_bytes.
Qed.

Lemma runes_scalar (s : string) : Forall scalar (runes s).
Proof. apply runes_from_scalar, bytes_range. Qed.

Lemma to_valid_idem (s : string) : to_valid (to_valid s) = to_valid s.
Proof. unfold to_valid. rewrite runes_of_runes by apply runes_scalar. reflexivity. Qed.

Lemma utf16_decode_encode_app (rs rest : list Z) :
  Forall scalar rs ->
  utf16_decode_from false (utf16_encode rs ++ rest) = rs ++ utf16_decode_from false rest.
Proof.
  induction 1 as [|r rs Hr _ IH]; cbn [utf16_encode flat_map]; [reflexivity|].
  fold (utf16_encode rs). rewrite <- app_assoc.
  revert Hr. unfold scalar, utf16_encode_rune, MaxRune, surrogate, between. intros Hr.
  split_ifs; unbool; try lia; cbn [app utf16_decode_from]; unfold surrogate, between;
    decide_cmp; rewrite ?IH; try reflexivity; f_equal; lia.
Qed.

Lemma utf16_decode_encode (rs : list Z) :
  Forall scalar rs -> utf16_decode (utf16_encode rs) = rs.
Proof.
  intros H. unfold utf16_decode. rewrite <- (app_nil_r (utf16_encode rs)).
  rewrite utf16_decode_encode_app by exact H. apply app_nil_r.
Qed.

(** ** Strings without a NUL byte *)

Lemma bytes_app (s t : string) : bytes (s +:+ t) = bytes s ++ bytes t.
Proof.
  induction s as [|a s IH]; [reflexivity|].
  change (String a s +:+ t) with (String a (s +:+ t)). cbn [bytes app].
  rewrite IH. reflexivity.
Qed.

Lemma has_nul_bytes (s : string) :
  has_nul s = false -> Forall (fun b => b <> 0) (bytes s).
Proof.
  induction s as [|a s IH]; cbn; intros H; [constructor|].
  apply orb_false_elim in H as [H1 H2]. apply Z.eqb_neq in H1.
  constructor; [exact H1|apply IH, H2].
Qed.

Lemma decode_rune_nonzero (b0 : Z) (t : list Z) :
  is_byte b0 -> b0 <> 0 -> fst (decode_rune b0 t) <> 0.
Proof.
  unfold is_byte, decode_rune, between, RuneError. intros Hb Hn.
  destruct t as [|b1 [|b2 [|b3 t]]]; split_ifs; cbn; unbool; lia.
Qed.

Lemma runes_from_nonzero (bs : list Z) (skip : nat) :
  Forall is_byte bs -> Forall (fun b => b <> 0) bs ->
  Forall (fun r => r <> 0) (runes_from skip bs).
Proof.
  intros H. revert skip. induction H as [|b bs Hb _ IH]; intros skip Hn; cbn.
  - constructor.
  - apply Forall_cons in Hn as [Hn1 Hn2]. destruct skip; [|apply IH, Hn2].
    pose proof (decode_rune_nonzero b bs Hb Hn1) as Hs.
    destruct (decode_rune b bs) as [r w]. constructor; [exact Hs|apply IH, Hn2].
Qed.

Lemma runes_nonzero (s : string) :
  has_nul s = false -> Forall (fun r => r <> 0) (runes s).
Proof.
  intros H. apply runes_from_nonzero; [apply bytes_range|apply has_nul_bytes, H].
Qed.

Lemma utf16_encode_rune_nonzero (r : Z) :
  r <> 0 -> Forall (fun u => u <> 0) (utf16_encode_rune r).
Proof.
  unfold utf16_encode_rune, MaxRune, RuneError, surrogate, between. intros Hr.
  split_ifs; unbool; repeat constructor; try lia.
Qed.

Lemma utf16_encode_nonzero (rs : list Z) :
  Forall (fun r => r <> 0) rs -> Forall (fun u => u <> 0) (utf16_encode rs).
Proof.
  induction 1 as [|r rs Hr _ IH]; cbn; [constructor|].
  apply Forall_app. split; [apply utf16_encode_rune_nonzero, Hr|exact IH].
Qed.

Lemma until_nul_app (us rest : list Z) :
  Forall (fun u => u <> 0) us -> until_nul (us ++ 0 :: rest) = us.
Proof.
  induction 1 as [|u us Hu _ IH]; cbn; [reflexivity|].
  apply Z.eqb_neq in Hu. rewrite Hu, IH. reflexivity.
Qed.

(** What [UTF16ToString] makes of the data [UTF16FromString] gave. *)
Lemma UTF16ToString_FromString (s : string) (u rest : list Z) :
  UTF16FromString s = Some u -> UTF16ToString (u ++ 0 :: rest) = to_valid s.
Proof.
  unfold UTF16FromString, UTF16ToString, to_valid.
  destruct (has_nul s) eqn:Hn; [discriminate|]. intros [= <-].
  rewrite until_nul_app by apply utf16_encode_nonzero, runes_nonzero, Hn.
  rewrite utf16_decode_encode by apply runes_scalar. reflexivity.
Qed.

(** ** Lists of strings *)

(** A NUL byte ends the rune before it: decoding does not run over it. *)
Lemma decode_rune_nul (b0 : Z) (t rest : list Z) :
  decode_rune b0 (t ++ 0 :: rest) = decode_rune b0 t.
Proof.
  unfold decode_rune, between.
  destruct t as [|b1 [|b2 [|b3 t]]]; destruct rest as [|r1 [|r2 rest]];
    cbn [app]; split_ifs; unbool; try reflexivity; try lia.
Qed.

Lemma decode_rune_width (b0 : Z) (t : list Z) :
  (snd (decode_rune b0 t) - 1 <= length t)%nat.
Proof.
  unfold decode_rune.
  destruct t as [|b1 [|b2 [|b3 t]]]; split_ifs; cbn; lia.
Qed.

Lemma runes_from_nul (bs rest : list Z) (skip : nat) :
  (skip <= length bs)%nat ->
  runes_from skip (bs ++ 0 :: rest) = runes_from skip bs ++ 0 :: runes_from 0 rest.
Proof.
  revert skip. induction bs as [|b bs IH]; intros skip Hs.
  - cbn in Hs. replace skip with 0%nat by lia. reflexivity.
  - cbn [app runes_from]. destruct skip as [|n].
    + rewrite decode_rune_nul. pose proof (decode_rune_width b bs) as Hw.
      destruct (decode_rune b bs) as [r w]. cbn [snd] in Hw.
      rewrite IH by exact Hw. reflexivity.
    + apply IH. cbn in Hs. lia.
Qed.

Lemma bytes_nul : bytes nul = [0].
Proof. reflexivity. Qed.

Lemma runes_joined (l : list string) :
  runes (joined l +:+ nul) = flat_map (fun s => runes s ++ [0]) l ++ [0].
Proof.
  unfold runes. rewrite bytes_app, bytes_nul.
  induction l as [|s l IH]; cbn [joined flat_map]; [reflexivity|].
  rewrite !bytes_app, bytes_nul, <- ?app_assoc. cbn [app].
  rewrite runes_from_nul by lia. rewrite IH, <- ?app_assoc. reflexivity.
Qed.

Lemma utf16_encode_app (a b : list Z) :
  utf16_encode (a ++ b) = utf16_encode a ++ utf16_encode b.
Proof. apply flat_map_app. Qed.

Lemma strip_last_nul_snoc (p : list Z) : strip_last_nul (p ++ [0]) = p.
Proof.
  unfold strip_last_nul. rewrite last_snoc. cbn. apply removelast_last.
Qed.

Lemma split_nul_piece (cur a rest : list Z) :
  Forall (fun u => u <> 0) a ->
  split_nul cur (a ++ 0 :: rest) = (cur ++ a) :: split_nul [] rest.
Proof.
  intros H. revert cur. induction H as [|u a Hu _ IH]; intros cur; cbn.
  - rewrite app_nil_r. reflexivity.
  - apply Z.eqb_neq in Hu. rewrite Hu, IH, <- app_assoc. reflexivity.
Qed.

(** What [GetStringsValue] makes of the data [SetStringsValue] stored. *)
Lemma parse_multi_units (l : list string) (u : list Z) :
  multi_units l = Some u -> parse_multi u = map to_valid l.
Proof.
  unfold multi_units, parse_multi.
  destruct (existsb has_nul l) eqn:Hn; [discriminate|]. intros [= <-].
  rewrite runes_joined, utf16_encode_app. change (utf16_encode [0]) with [0].
  rewrite strip_last_nul_snoc.
  induction l as [|s l IH]; [reflexivity|].
  cbn in Hn. apply orb_false_elim in Hn as [Hs Hl].
  cbn [flat_map]. rewrite !utf16_encode_app. change (utf16_encode [0]) with [0].
  rewrite <- app_assoc. cbn [app].
  rewrite split_nul_piece by apply utf16_encode_nonzero, runes_nonzero, Hs.
  cbn [map app]. rewrite IH by exact Hl.
  rewrite utf16_decode_encode by apply runes_scalar. reflexivity.
Qed.

Lemma map_unchanged (l : list string) : Forall unchanged l -> map to_valid l = l.
Proof.
  induction 1 as [|s l Hs _ IH]; cbn; [reflexivity|]. rewrite Hs, IH. reflexivity.
Qed.
Ltac Zify.zify_post_hook ::= idtac.

(** * Properties of the package on the in-memory registry *)

Import RegModel.
Import Typed.

(** ** Handles *)

Lemma foldr_max_ge (c : Z) (l : list Z) (k : Z) : k ∈ l -> k <= foldr Z.max c l.
Proof.
  induction l as [|a l IH]; intros Hin.
  - inversion Hin.
  - apply elem_of_cons in Hin as [->|Hin]; cbn; [lia|]. specialize (IH Hin). lia.
Qed.

Lemma foldr_max_base (c : Z) (l : list Z) : c <= foldr Z.max c l.
Proof. induction l; cbn; lia. Qed.

(** A new handle is not an open one. *)
Lemma alloc_fresh (r : reg) : handles r !! alloc r = None.
Proof.
  destruct (handles r !! alloc r) as [x|] eqn:E; [|reflexivity].
  exfalso.
  assert (alloc r ∈ map fst (map_to_list (handles r))) as Hin.
  { apply list_elem_of_fmap. exists (alloc r, x). split; [reflexivity|].
    by apply elem_of_map_to_list. }
  apply (foldr_max_ge CURRENT_CONFIG) in Hin. unfold alloc, Key in Hin. lia.
Qed.

(** Nor a predefined root. *)
Lemma alloc_not_predefined (r : reg) : predefined (alloc r) = false.
Proof.
  pose proof (foldr_max_base CURRENT_CONFIG (map fst (map_to_list (handles r)))) as H.
  unfold predefined, alloc.
  unfold CLASSES_ROOT, CURRENT_USER, LOCAL_MACHINE, USERS, CURRENT_CONFIG in *.
  repeat (apply orb_false_intro); apply Z.eqb_neq; lia.
Qed.

Lemma resolve_not_alloc (root : Key) (r : reg) (h : hinfo) :
  resolve root r = Some h -> root <> alloc r.
Proof.
  unfold resolve. intros H ->. rewrite alloc_fresh, alloc_not_predefined in H.
  discriminate.
Qed.

(** Opening one more handle does not change what a root stands for. *)
Lemma resolve_more (root : Key) (r s : reg) (h hi : hinfo) :
  resolve root r = Some h ->
  handles s = <[alloc r := hi]> (handles r) ->
  resolve root s = Some h.
Proof.
  intros Hres Hs. pose proof (resolve_not_alloc root r h Hres) as Hne.
  unfold resolve in *. rewrite Hs, lookup_insert_ne by congruence. exact Hres.
Qed.

Lemma reg_eta (r : reg) :
  {| keys := keys r; handles := handles r; fold := fold r |} = r.
Proof. destruct r; reflexivity. Qed.

(** Between the open and the close of a function, the handle gives access
    to the values of its key. *)
Lemma session_values (r s : reg) (l : loc) (acc need : Z) (k : Key)
  (hs : gmap Z hinfo) :
  session r l acc k hs ->
  handles s = hs ->
  has_access acc need = true ->
  has_access ALL_ACCESS need = true ->
  key_values k need s
  = match keys s !! l with
    | Some rec => inl (l, rec)
    | None => inr ERROR_KEY_DELETED
    end.
Proof.
  intros [|k' Hk Hp ->] Hs Hacc Hall; unfold key_values, resolve; rewrite Hs.
  - rewrite lookup_insert_eq. cbn. rewrite Hacc. reflexivity.
  - rewrite Hk, Hp. cbn [h_access h_loc]. rewrite Hall. reflexivity.
Qed.

Lemma session_resolve (r s : reg) (l : loc) (acc : Z) (k : Key)
  (hs : gmap Z hinfo) :
  session r l acc k hs ->
  handles s = hs ->
  exists a, resolve k s = Some {| h_loc := l; h_access := a |}.
Proof.
  intros [|k' Hk Hp ->] Hs; unfold resolve; rewrite Hs.
  - rewrite lookup_insert_eq. eauto.
  - rewrite Hk, Hp. eauto.
Qed.

(** Closing the handle restores the table of handles. *)
Lemma session_close (r s : reg) (l : loc) (acc : Z) (k : Key)
  (hs : gmap Z hinfo) :
  session r l acc k hs ->
  handles s = hs ->
  close k s = (nil, set_handles (handles r) s).
Proof.
  intros [|k' Hk Hp ->] Hs; unfold close; rewrite Hs.
  - rewrite lookup_insert_eq. rewrite delete_insert_id by apply alloc_fresh.
    reflexivity.
  - rewrite Hk, Hp. unfold set_handles. rewrite <- Hs, reg_eta. reflexivity.
Qed.

(** The key a root and a path lead to, when there is one. *)
Lemma locate_Some (root : Key) (path : string) (r : reg) (l : loc) :
  locate root path r = Some l <->
  has_nul path = false /\
  exists h, resolve root r = Some h /\ l = below (fold r) (h_loc h) path.
Proof.
  unfold locate. destruct (has_nul path); [split; [discriminate|intros [? _]; discriminate]|].
  destruct (resolve root r) as [h|]; split.
  - intros [= <-]. eauto.
  - intros (_ & h' & [= <-] & ->). reflexivity.
  - discriminate.
  - intros (_ & h' & ? & _). discriminate.
Qed.

Lemma echoes_true (k : Key) (path : string) (r : reg) :
  echoes k path r = true ->
  path = ""%string /\ predefined k = true /\ handles r !! k = None.
Proof.
  unfold echoes. intros H. apply andb_prop in H as [H H3].
  apply andb_prop in H as [H1 H2]. apply String.eqb_eq in H1.
  apply bool_decide_eq_true_1 in H3. auto.
Qed.

(** [OpenKey] succeeds exactly on the keys of the store, and changes
    nothing but the table of handles. *)
Lemma open_key_found (root : Key) (path : string) (acc : Z) (r : reg)
  (l : loc) (rec : keyrec) :
  locate root path r = Some l ->
  keys r !! l = Some rec ->
  exists k hs,
    open_key root path acc r = ((k, nil), set_handles hs r) /\
    session r l acc k hs.
Proof.
  intros Hl Hk. apply locate_Some in Hl as (Hn & h & Hres & ->).
  unfold open_key. rewrite Hn, Hres, Hk.
  destruct (echoes root path r) eqn:He.
  - apply echoes_true in He as (-> & Hp & Hh).
    exists root, (handles r). unfold set_handles. rewrite reg_eta.
    split; [reflexivity|]. apply session_root; [exact Hh|exact Hp|].
    unfold resolve in Hres. rewrite Hh, Hp in Hres. injection Hres as <-.
    reflexivity.
  - eexists _, _. split; [reflexivity|]. apply session_new.
Qed.

Lemma open_key_missing (root : Key) (path : string) (acc : Z) (r : reg) :
  (forall l, locate root path r = Some l -> keys r !! l = None) ->
  exists e, open_key root path acc r = ((0, Some e), r).
Proof.
  intros H. unfold open_key, locate in *.
  destruct (has_nul path); [eauto|].
  destruct (resolve root r) as [h|]; [|eauto].
  rewrite (H _ eq_refl). eauto.
Qed.

(** ** Values *)

Lemma name_key_valid (f : string -> string) (n : string) :
  name_key f (to_valid n) = name_key f n.
Proof. unfold name_key. rewrite to_valid_idem. reflexivity. Qed.

Lemma same_name_refl (f : string -> string) (n : string) : same_name f n n = true.
Proof. apply String.eqb_refl. Qed.

Lemma same_name_true (f : string -> string) (a b : string) :
  same_name f a b = true <-> name_key f a = name_key f b.
Proof. apply String.eqb_eq. Qed.

Lemma same_name_false (f : string -> string) (a b : string) :
  same_name f a b = false <-> name_key f a <> name_key f b.
Proof. apply String.eqb_neq. Qed.

Lemma lookup_store (f : string -> string) (name : string) (v : regvalue) (vs : values) :
  lookup_value f name (store_value f name v vs) = Some v.
Proof.
  induction vs as [|[n v'] vs IH]; cbn.
  - replace (same_name f name (to_valid name)) with true; [reflexivity|].
    symmetry. apply same_name_true. symmetry. apply name_key_valid.
  - destruct (same_name f name n) eqn:E; cbn; rewrite E; [reflexivity|exact IH].
Qed.

Lemma remove_value_gone (f : string -> string) (name : string) (vs : values) :
  name ∉ value_names (remove_value f name vs).
Proof.
  induction vs as [|[n v] vs IH]; cbn.
  - apply not_elem_of_nil.
  - destruct (same_name f name n) eqn:E; [exact IH|].
    cbn. apply not_elem_of_cons. split; [|exact IH].
    intros ->. rewrite same_name_refl in E. discriminate.
Qed.

(** ** Readers *)

Lemma stored_Some (root : Key) (path name : string) (r : reg) (v : regvalue) :
  stored root path name r = Some v ->
  has_nul name = false /\
  exists l rec, locate root path r = Some l /\ keys r !! l = Some rec /\
    lookup_value (fold r) name (k_values rec) = Some v.
Proof.
  unfold stored. destruct (has_nul name); [discriminate|].
  destruct (locate root path r) as [l|]; [|discriminate].
  destruct (keys r !! l) as [rec|] eqn:Hk; [|discriminate].
  intros H. split; [reflexivity|]. exists l, rec. auto.
Qed.

(** A value can be missing for four reasons. *)
Lemma stored_None (root : Key) (path name : string) (r : reg) :
  stored root path name r = None ->
  (forall l, locate root path r = Some l -> keys r !! l = None) \/
  exists l rec, locate root path r = Some l /\ keys r !! l = Some rec /\
    (has_nul name = true \/ lookup_value (fold r) name (k_values rec) = None).
Proof.
  unfold stored.
  destruct (locate root path r) as [l|] eqn:Hl; [|left; intros ? [=]].
  destruct (keys r !! l) as [rec|] eqn:Hk.
  - intros H. right. exists l, rec. split; [reflexivity|]. split; [exact Hk|].
    destruct (has_nul name); auto.
  - intros _. left. intros l' [= <-]. exact Hk.
Qed.

Lemma stored_at (root : Key) (path name : string) (r : reg) (l : loc) (rec : keyrec) :
  locate root path r = Some l -> keys r !! l = Some rec ->
  stored root path name r
  = if has_nul name then None else lookup_value (fold r) name (k_values rec).
Proof.
  unfold stored. intros -> Hk.
  pose (F := fun o : option keyrec =>
          match o with
          | Some rec => lookup_value (fold r) name (k_values rec)
          | None => None
          end).
  destruct (has_nul name); [reflexivity|]. exact (f_equal F Hk).
Qed.

Lemma set_handles_back (hs : gmap Z hinfo) (r : reg) :
  set_handles (handles r) (set_handles hs r) = r.
Proof. unfold set_handles. cbn. apply reg_eta. Qed.

(** Running a function that opens a key, on a key of the store. *)
Ltac enter Ho :=
  cbn; rewrite Ho; cbn.

Ltac in_session Hs :=
  repeat first
    [ rewrite (session_values _ _ _ _ _ _ _ Hs) by reflexivity
    | rewrite (session_close _ _ _ _ _ _ Hs) by reflexivity
    | progress cbn ].

Lemma reader_stored (k : kind) (root : Key) (path name : string) (r : reg)
  (v : regvalue) :
  stored root path name r = Some v ->
  exec os (reader k root path name) r
  = (match read_back k v with
     | Some a => (a, nil)
     | None => (zero k, Some ErrUnexpectedType)
     end, r).
Proof.
  intros H. apply stored_Some in H as (Hn & l & rec & Hl & Hk & Hv).
  destruct (open_key_found root path QUERY_VALUE r l rec Hl Hk) as (key & hs & Ho & Hs).
  destruct k; enter Ho; unfold get_typed, get_value; rewrite Hn; in_session Hs;
    rewrite Hk, Hv.
  all: destruct v; in_session Hs; rewrite ?set_handles_back; try reflexivity.
Qed.

Lemma reader_absent (k : kind) (root : Key) (path name : string) (r : reg) :
  stored root path name r = None ->
  exists e, exec os (reader k root path name) r = ((zero k, Some e), r).
Proof.
  intros H. apply stored_None in H as [H|(l & rec & Hl & Hk & Hv)].
  - destruct (open_key_missing root path QUERY_VALUE r H) as [e Ho].
    exists e. destruct k; enter Ho; reflexivity.
  - destruct (open_key_found root path QUERY_VALUE r l rec Hl Hk) as (key & hs & Ho & Hs).
    destruct (has_nul name) eqn:Hn.
    + exists EINVAL.
      destruct k; enter Ho; unfold get_typed, get_value; rewrite Hn; in_session Hs;
        rewrite ?set_handles_back; reflexivity.
    + destruct Hv as [Hv|Hv]; [discriminate|]. exists ErrNotExist.
      destruct k; enter Ho; unfold get_typed, get_value; rewrite Hn; in_session Hs;
        rewrite Hk, Hv; in_session Hs; rewrite ?set_handles_back; reflexivity.
Qed.

Lemma ReadStringValueWithDefault_exec (root : Key) (path name def : string) (r : reg) :
  exec os (winreg.ReadStringValueWithDefault root path name def) r
  = ((match stored root path name r with
      | Some v => match pick_string v with Some s => s | None => def end
      | None => def
      end, nil), r).
Proof.
  destruct (stored root path name r) as [v|] eqn:H.
  - apply stored_Some in H as (Hn & l & rec & Hl & Hk & Hv).
    destruct (open_key_found root path QUERY_VALUE r l rec Hl Hk) as (key & hs & Ho & Hs).
    enter Ho. unfold get_typed, get_value. rewrite Hn. in_session Hs. rewrite Hk, Hv.
    destruct v; in_session Hs; rewrite ?set_handles_back; reflexivity.
  - apply stored_None in H as [H|(l & rec & Hl & Hk & Hv)].
    + destruct (open_key_missing root path QUERY_VALUE r H) as [e Ho].
      enter Ho. reflexivity.
    + destruct (open_key_found root path QUERY_VALUE r l rec Hl Hk) as (key & hs & Ho & Hs).
      enter Ho. unfold get_typed, get_value.
      destruct (has_nul name) eqn:Hn; in_session Hs; rewrite ?set_handles_back;
        [reflexivity|].
      destruct Hv as [Hv|Hv]; [discriminate|]. rewrite Hk, Hv.
      in_session Hs. rewrite ?set_handles_back. reflexivity.
Qed.

Lemma ValueExists_exec (root : Key) (path name : string) (r : reg) :
  exec os (winreg.ValueExists root path name) r
  = (match stored root path name r with
     | Some v => bool_decide (is_Some (pick_string v))
     | None => false
     end, r).
Proof.
  destruct (stored root path name r) as [v|] eqn:H.
  - apply stored_Some in H as (Hn & l & rec & Hl & Hk & Hv).
    destruct (open_key_found root path QUERY_VALUE r l rec Hl Hk) as (key & hs & Ho & Hs).
    enter Ho. unfold get_typed, get_value. rewrite Hn. in_session Hs. rewrite Hk, Hv.
    destruct v; in_session Hs; rewrite ?set_handles_back; reflexivity.
  - apply stored_None in H as [H|(l & rec & Hl & Hk & Hv)].
    + destruct (open_key_missing root path QUERY_VALUE r H) as [e Ho].
      enter Ho. reflexivity.
    + destruct (open_key_found root path QUERY_VALUE r l rec Hl Hk) as (key & hs & Ho & Hs).
      enter Ho. unfold get_typed, get_value.
      destruct (has_nul name) eqn:Hn; in_session Hs; rewrite ?set_handles_back;
        [reflexivity|].
      destruct Hv as [Hv|Hv]; [discriminate|]. rewrite Hk, Hv.
      in_session Hs. rewrite ?set_handles_back. reflexivity.
Qed.

(** ** Writers *)

(** The registry after a value was stored in the key [l]. *)
Lemma writer_exec (k : kind) (root : Key) (path name : string) (v : carrier k)
  (r : reg) (l : loc) (rec : keyrec) (d : regvalue) :
  locate root path r = Some l ->
  keys r !! l = Some rec ->
  has_nul name = false ->
  written k v = Some d ->
  exec os (writer k root path name v) r
  = (nil, set_keys (<[l := set_values (store_value (fold r) name d (k_values rec)) rec]>
                      (keys r)) r).
Proof.
  intros Hl Hk Hn Hd.
  destruct (open_key_found root path WRITE r l rec Hl Hk) as (key & hs & Ho & Hs).
  destruct k; cbn in Hd; enter Ho; unfold set_string, set_strings;
    try (destruct (UTF16FromString v) as [u|]; [|discriminate]);
    try (destruct (multi_units v) as [u|]; [|discriminate]);
    cbn in Hd; injection Hd as <-;
    unfold set_value; rewrite Hn; in_session Hs; rewrite Hk; in_session Hs;
    reflexivity.
Qed.

(** A writer fails, and changes nothing, when the key is missing, when the
    name holds a NUL byte or when the library does not take the data. *)
Lemma writer_fails (k : kind) (root : Key) (path name : string) (v : carrier k)
  (r : reg) :
  (forall l, locate root path r = Some l -> keys r !! l = None) \/
  has_nul name = true \/ written k v = None ->
  exists e, exec os (writer k root path name v) r = (Some e, r).
Proof.
  intros H.
  destruct (locate root path r) as [l|] eqn:Hl.
  2:{ destruct (open_key_missing root path WRITE r) as [e Ho].
      { rewrite Hl. intros ? [=]. }
      exists e. destruct k; enter Ho; reflexivity. }
  destruct (keys r !! l) as [rec|] eqn:Hk.
  2:{ destruct (open_key_missing root path WRITE r) as [e Ho].
      { rewrite Hl. intros ? [= <-]. exact Hk. }
      exists e. destruct k; enter Ho; reflexivity. }
  destruct (open_key_found root path WRITE r l rec Hl Hk) as (key & hs & Ho & Hs).
  destruct (written k v) as [d|] eqn:Hd.
  - destruct H as [H|[Hn|H]]; [specialize (H l eq_refl); congruence| |discriminate].
    exists EINVAL.
    destruct k; cbn in Hd; enter Ho; unfold set_string, set_strings;
      try (destruct (UTF16FromString v) as [u|]; [|discriminate]);
      try (destruct (multi_units v) as [u|]; [|discriminate]);
      unfold set_value; rewrite Hn; in_session Hs; rewrite ?set_handles_back;
      reflexivity.
  - clear H. destruct k; cbn in Hd; try discriminate.
    + exists (ErrorString "string cannot have 0 inside").
      enter Ho. unfold set_strings.
      destruct (multi_units v) as [u|]; [discriminate|].
      in_session Hs. rewrite ?set_handles_back. reflexivity.
    + exists EINVAL. enter Ho. unfold set_string.
      destruct (UTF16FromString v) as [u|]; [discriminate|].
      in_session Hs. rewrite ?set_handles_back. reflexivity.
Qed.

(** A writer that reports no error found its key, a name and data that the
    library takes. *)
Lemma writer_ok (k : kind) (root : Key) (path name : string) (v : carrier k)
  (r : reg) :
  fst (exec os (writer k root path name v) r) = nil ->
  exists l rec d,
    locate root path r = Some l /\ keys r !! l = Some rec /\
    has_nul name = false /\ written k v = Some d.
Proof.
  intros Hok.
  destruct (locate root path r) as [l|] eqn:Hl.
  2:{ destruct (writer_fails k root path name v r) as [e He].
      { left. rewrite Hl. intros ? [=]. }
      rewrite He in Hok. discriminate. }
  destruct (keys r !! l) as [rec|] eqn:Hk.
  2:{ destruct (writer_fails k root path name v r) as [e He].
      { left. rewrite Hl. intros ? [= <-]. exact Hk. }
      rewrite He in Hok. discriminate. }
  destruct (has_nul name) eqn:Hn.
  { destruct (writer_fails k root path name v r) as [e He]; [auto|].
    rewrite He in Hok. discriminate. }
  destruct (written k v) as [d|] eqn:Hd.
  2:{ destruct (writer_fails k root path name v r) as [e He]; [auto|].
      rewrite He in Hok. discriminate. }
  exists l, rec, d. auto.
Qed.

Lemma locate_set_keys (root : Key) (path : string) (ks : gmap loc keyrec) (r : reg) :
  locate root path (set_keys ks r) = locate root path r.
Proof. reflexivity. Qed.

(** A writer that reports no error has stored its data under the name. *)
Lemma writer_stores (k : kind) (root : Key) (path name : string) (v : carrier k)
  (r : reg) :
  fst (exec os (writer k root path name v) r) = nil ->
  exists d, written k v = Some d /\
    stored root path name (snd (exec os (writer k root path name v) r)) = Some d.
Proof.
  intros Hok. destruct (writer_ok _ _ _ _ _ _ Hok) as (l & rec & d & Hl & Hk & Hn & Hd).
  exists d. split; [exact Hd|].
  rewrite (writer_exec k root path name v r l rec d Hl Hk Hn Hd). cbn [snd].
  erewrite stored_at; [|rewrite locate_set_keys; exact Hl|apply lookup_insert_eq].
  rewrite Hn. apply lookup_store.
Qed.

(** What the reader of a kind makes of the data its writer stores. *)
Lemma read_back_written (k : kind) (v : carrier k) (d : regvalue) :
  in_range k v ->
  written k v = Some d ->
  read_back k d = Some (match k return carrier k -> carrier k with
                        | KInt64 => int32
                        | _ => fun x => x
                        end v).
Proof.
  destruct k; cbn; intros H Hd.
  - injection Hd as <-. cbn. rewrite uint32_id by exact H. reflexivity.
  - injection Hd as <-. cbn. rewrite uint64_id by exact H. reflexivity.
  - injection Hd as <-. reflexivity.
  - destruct (multi_units v) as [u|] eqn:Hu; [|discriminate].
    injection Hd as <-. cbn. rewrite (parse_multi_units v u Hu).
    rewrite map_unchanged by exact H. reflexivity.
  - destruct (UTF16FromString v) as [u|] eqn:Hu; [|discriminate].
    injection Hd as <-. cbn. rewrite (UTF16ToString_FromString v u [] Hu).
    rewrite H. reflexivity.
  - injection Hd as <-. cbn. rewrite int32_uint32, int32_id by exact H. reflexivity.
  - injection Hd as <-. cbn.
    rewrite !int32_uint32, (int32_id (int32 v)) by apply int32_range.
    rewrite int64_of_int32 by apply int32_range. reflexivity.
Qed.

(** ** Keys *)

Lemma make_keys_present (f : string -> string) (root : Z) (comps base : list string)
  (ks : gmap loc keyrec) :
  is_Some (ks !! (root, base)) ->
  is_Some (make_keys f root base comps ks !! (root, base ++ map (name_key f) comps)).
Proof.
  revert base ks. induction comps as [|c cs IH]; intros base ks Hb; cbn.
  - rewrite app_nil_r. exact Hb.
  - rewrite cons_middle, app_assoc. apply IH.
    destruct (ks !! (root, base ++ [name_key f c])) eqn:E; [eauto|].
    rewrite lookup_insert_eq. eauto.
Qed.

Lemma KeyExists_exec (root : Key) (path : string) (r : reg) :
  exec os (winreg.KeyExists root path) r
  = (match locate root path r with
     | Some l => bool_decide (is_Some (keys r !! l))
     | None => false
     end, r).
Proof.
  destruct (locate root path r) as [l|] eqn:Hl.
  - destruct (keys r !! l) as [rec|] eqn:Hk.
    + destruct (open_key_found root path QUERY_VALUE r l rec Hl Hk)
        as (key & hs & Ho & Hs).
      enter Ho. in_session Hs. rewrite set_handles_back. reflexivity.
    + destruct (open_key_missing root path QUERY_VALUE r) as [e Ho].
      { rewrite Hl. intros ? [= <-]. exact Hk. }
      enter Ho. reflexivity.
  - destruct (open_key_missing root path QUERY_VALUE r) as [e Ho].
    { rewrite Hl. intros ? [=]. }
    enter Ho. reflexivity.
Qed.

(** The registry after [CreateKey] reported no error. *)
Lemma CreateKey_exec (root : Key) (path : string) (r : reg) :
  snd (fst (exec os (winreg.CreateKey root path) r)) = nil ->
  exists h, has_nul path = false /\ resolve root r = Some h /\
    fst (fst (exec os (winreg.CreateKey root path) r)) = alloc r /\
    snd (exec os (winreg.CreateKey root path) r)
    = set_keys (make_keys (fold r) (fst (h_loc h)) (snd (h_loc h)) (components path)
                  (keys r))
        (opened_reg (alloc r) (below (fold r) (h_loc h) path) ALL_ACCESS r) /\
    is_Some (keys r !! h_loc h).
Proof.
  cbn. unfold create_key.
  destruct (has_nul path); [discriminate|].
  destruct (resolve root r) as [h|] eqn:Hres; [|discriminate].
  destruct (keys r !! h_loc h) as [vs|] eqn:Hk; [|discriminate].
  cbn. intros _. exists h. eauto 10.
Qed.

Lemma locate_more (root : Key) (path : string) (r s : reg) (l : loc) (hi : hinfo) :
  locate root path r = Some l ->
  handles s = <[alloc r := hi]> (handles r) ->
  fold s = fold r ->
  locate root path s = Some l.
Proof.
  intros Hl Hs Hf. apply locate_Some in Hl as (Hn & h & Hres & ->).
  apply locate_Some. split; [exact Hn|]. exists h.
  split; [eapply resolve_more; eauto|]. rewrite Hf. reflexivity.
Qed.

Lemma CreateKey_then_KeyExists (root : Key) (path : string) (r : reg) :
  snd (fst (exec os (winreg.CreateKey root path) r)) = nil ->
  fst (exec os (winreg.KeyExists root path)
         (snd (exec os (winreg.CreateKey root path) r))) = true.
Proof.
  intros Hok. rewrite KeyExists_exec. cbn [fst].
  destruct (CreateKey_exec root path r Hok) as (h & Hn & Hres & _ & -> & Hroot).
  erewrite locate_more;
    [|apply locate_Some; split; [exact Hn|]; exists h; split; [exact Hres|reflexivity]
     |reflexivity|reflexivity].
  apply bool_decide_eq_true_2. cbn [keys set_keys]. unfold below.
  apply make_keys_present. destruct (h_loc h); exact Hroot.
Qed.

Lemma DeleteKey_exec (root : Key) (path : string) (r : reg) :
  fst (exec os (winreg.DeleteKey root path) r) = nil ->
  exists l rec, locate root path r = Some l /\ keys r !! l = Some rec /\
    components path <> [] /\
    subkey_names (fold r) l (keys r) = [] /\
    snd (exec os (winreg.DeleteKey root path) r) = set_keys (delete l (keys r)) r.
Proof.
  cbn. unfold delete_key, locate.
  destruct (has_nul path); [discriminate|].
  destruct (resolve root r) as [h|] eqn:Hres; [|discriminate].
  destruct (components path) eqn:Hc; [discriminate|].
  destruct (keys r !! below (fold r) (h_loc h) path) as [rec|] eqn:Hk; [|discriminate].
  destruct (subkey_names (fold r) (below (fold r) (h_loc h) path) (keys r)) eqn:Hsub;
    [|discriminate].
  cbn. intros _. exists (below (fold r) (h_loc h) path), rec.
  split; [reflexivity|]. split; [exact Hk|]. split; [discriminate|]. auto.
Qed.

Lemma DeleteKey_then_KeyExists (root : Key) (path : string) (r : reg) :
  fst (exec os (winreg.DeleteKey root path) r) = nil ->
  fst (exec os (winreg.KeyExists root path)
         (snd (exec os (winreg.DeleteKey root path) r))) = false.
Proof.
  intros Hok. rewrite KeyExists_exec. cbn [fst].
  destruct (DeleteKey_exec root path r Hok) as (l & rec & Hl & Hk & _ & _ & ->).
  rewrite locate_set_keys, Hl. apply bool_decide_eq_false_2. cbn [keys set_keys].
  rewrite lookup_delete_eq. intros [x Hx]. discriminate.
Qed.

(** ** Deleting and enumerating values *)

Lemma DeleteValue_absent (root : Key) (path name : string) (r : reg) :
  stored root path name r = None ->
  exists e, exec os (winreg.DeleteValue root path name) r = (Some e, r).
Proof.
  intros H. apply stored_None in H as [H|(l & rec & Hl & Hk & Hv)].
  - destruct (open_key_missing root path WRITE r H) as [e Ho].
    exists e. enter Ho. reflexivity.
  - destruct (open_key_found root path WRITE r l rec Hl Hk) as (key & hs & Ho & Hs).
    destruct (has_nul name) eqn:Hn.
    + exists EINVAL. enter Ho. unfold delete_value. rewrite Hn. in_session Hs.
      rewrite set_handles_back. reflexivity.
    + destruct Hv as [Hv|Hv]; [discriminate|]. exists ErrNotExist.
      enter Ho. unfold delete_value. rewrite Hn. in_session Hs. rewrite Hk, Hv.
      in_session Hs. rewrite set_handles_back. reflexivity.
Qed.

Lemma DeleteValue_exec (root : Key) (path name : string) (r : reg) :
  fst (exec os (winreg.DeleteValue root path name) r) = nil ->
  exists l rec, locate root path r = Some l /\ keys r !! l = Some rec /\
    has_nul name = false /\
    snd (exec os (winreg.DeleteValue root path name) r)
    = set_keys (<[l := set_values (remove_value (fold r) name (k_values rec)) rec]>
                  (keys r)) r.
Proof.
  intros Hok.
  destruct (stored root path name r) as [v|] eqn:H.
  - apply stored_Some in H as (Hn & l & rec & Hl & Hk & Hv).
    destruct (open_key_found root path WRITE r l rec Hl Hk) as (key & hs & Ho & Hs).
    exists l, rec. split; [exact Hl|]. split; [exact Hk|]. split; [exact Hn|].
    enter Ho. unfold delete_value. rewrite Hn. in_session Hs. rewrite Hk, Hv.
    in_session Hs. reflexivity.
  - destruct (DeleteValue_absent root path name r H) as [e He].
    rewrite He in Hok. discriminate.
Qed.

Lemma EnumerateValues_exec (root : Key) (path : string) (r : reg) :
  exists e,
  fst (exec os (winreg.EnumerateValues root path) r)
  = match locate root path r with
    | Some l =>
        match keys r !! l with
        | Some rec => (value_names (k_values rec), nil)
        | None => ([], Some e)
        end
    | None => ([], Some e)
    end.
Proof.
  destruct (locate root path r) as [l|] eqn:Hl.
  - destruct (keys r !! l) as [rec|] eqn:Hk.
    + destruct (open_key_found root path QUERY_VALUE r l rec Hl Hk)
        as (key & hs & Ho & Hs).
      exists EOF. enter Ho. unfold read_value_names. in_session Hs. rewrite Hk.
      in_session Hs. reflexivity.
    + destruct (open_key_missing root path QUERY_VALUE r) as [e Ho].
      { rewrite Hl. intros ? [= <-]. exact Hk. }
      exists e. enter Ho. reflexivity.
  - destruct (open_key_missing root path QUERY_VALUE r) as [e Ho].
    { rewrite Hl. intros ? [=]. }
    exists e. enter Ho. reflexivity.
Qed.

(** * The claims about registry contents *)



(** The round trip through any root and path that lead to the key, for
    the six pairs, on the in-memory registry. *)
Lemma round_trip_via (k : kind) (root : Key)
  (keyPath valueName : string) (v : carrier k) (r : reg)
  (root' : Key) (keyPath' : string) :
  k <> KInt64 ->
  in_range k v ->
  locate root' keyPath' r = locate root keyPath r ->
  result os (writer k root keyPath valueName v) r = nil ->
  result os (reader k root' keyPath' valueName)
    (final os (writer k root keyPath valueName v) r) = (v, nil).
Proof.
  intros Hk Hv Hloc Hok. rewrite result_exec in Hok. rewrite result_exec, final_exec.
  destruct (writer_ok _ _ _ _ _ _ Hok) as (l & rec & d & Hl & Hkey & Hn & Hd).
  rewrite (writer_exec k root keyPath valueName v r l rec d Hl Hkey Hn Hd). cbn [snd].
  erewrite reader_stored.
  2:{ erewrite stored_at;
        [|rewrite locate_set_keys, Hloc; exact Hl|apply lookup_insert_eq].
      rewrite Hn. apply lookup_store. }
  rewrite (read_back_written k v d Hv Hd). destruct k; try reflexivity.
  contradiction.
Qed.




(** C3.  [ReadStringValueWithDefault] returns a nil error always.  On any
    system, its string is the default when [OpenKey] fails or when
    [GetStringValue] fails, and the string [GetStringValue] read otherwise.
    On the in-memory registry, it is the string stored under the name when
    there is one, and the default otherwise. *)
Theorem ReadStringValueWithDefault_spec
  (root : Key) (keyPath valueName defaultValue : string) :
  (forall (W : Type) (h : handler W) (w : W),
     result h (winreg.ReadStringValueWithDefault root keyPath valueName defaultValue) w =
       match h _ (OpenKey root keyPath QUERY_VALUE) w with
       | ((_, Some _), _) => (defaultValue, nil)
       | ((k, None), w1) =>
           match h _ (GetStringValue k valueName) w1 with
           | ((_, _, Some _), _) => (defaultValue, nil)
           | ((value, _, None), _) => (value, nil)
           end
       end) /\
  (forall r : reg,
     result os (winreg.ReadStringValueWithDefault root keyPath valueName defaultValue) r =
       (match stored root keyPath valueName r with
        | Some v => match pick_string v with Some s => s | None => defaultValue end
        | None => defaultValue
        end, nil)).
Proof.
  split.
  - intros W h w. apply ReadStringValueWithDefault_any_system.
  - intros r. rewrite result_exec, ReadStringValueWithDefault_exec. reflexivity.
Qed.

(** C4.  When no value is stored under the root, path and name, each of
    [ReadDWordValue], [ReadQWordValue], [ReadBinaryValue],
    [ReadMultiStringValue], [ReadExpandStringValue], [ReadInt32Value] and
    [ReadInt64Value] returns the zero value of its type and a non-nil
    error. *)
Theorem readers_fail_on_missing_value (k : kind) (root : Key)
  (keyPath valueName : string) (r : reg) :
  stored root keyPath valueName r = None ->
  exists e, result os (reader k root keyPath valueName) r = (zero k, Some e).
Proof.
  intros H. destruct (reader_absent k root keyPath valueName r H) as [e He].
  exists e. rewrite result_exec, He. reflexivity.
Qed.

Lemma readers_fail_on_missing_value_example :
  stored CURRENT_USER Fixture.test_path "missing" Fixture.test_reg = None /\
  exists e, result os (winreg.ReadDWordValue CURRENT_USER Fixture.test_path "missing")
              Fixture.test_reg = (0, Some e).
Proof.
  split; [vm_compute; reflexivity|].
  apply (readers_fail_on_missing_value KDWord CURRENT_USER Fixture.test_path
           "missing" Fixture.test_reg).
  vm_compute. reflexivity.
Defined.

(** C5.  When [CreateKey] reports no error, [KeyExists] on the same root
    and path, run next, returns true; when [DeleteKey] reports no error,
    [KeyExists] on the same root and path, run next, returns false. *)
Theorem KeyExists_after_CreateKey_and_DeleteKey (root : Key) (keyPath : string)
  (r : reg) :
  (snd (result os (winreg.CreateKey root keyPath) r) = nil ->
   result os (winreg.KeyExists root keyPath)
     (final os (winreg.CreateKey root keyPath) r) = true) /\
  (result os (winreg.DeleteKey root keyPath) r = nil ->
   result os (winreg.KeyExists root keyPath)
     (final os (winreg.DeleteKey root keyPath) r) = false).
Proof.
  split; intros H; rewrite result_exec in H; rewrite result_exec, final_exec.
  - apply CreateKey_then_KeyExists. exact H.
  - apply DeleteKey_then_KeyExists. exact H.
Qed.

Lemma KeyExists_after_CreateKey_and_DeleteKey_example :
  (snd (result os (winreg.CreateKey CURRENT_USER Fixture.test_path) Fixture.boot) = nil /\
   result os (winreg.KeyExists CURRENT_USER Fixture.test_path)
     (final os (winreg.CreateKey CURRENT_USER Fixture.test_path) Fixture.boot) = true) /\
  (result os (winreg.DeleteKey CURRENT_USER Fixture.test_path) Fixture.test_reg = nil /\
   result os (winreg.KeyExists CURRENT_USER Fixture.test_path)
     (final os (winreg.DeleteKey CURRENT_USER Fixture.test_path) Fixture.test_reg) = false).
Proof.
  split; (split; [vm_compute; reflexivity|]).
  - apply (proj1 (KeyExists_after_CreateKey_and_DeleteKey CURRENT_USER
                    Fixture.test_path Fixture.boot)).
    vm_compute. reflexivity.
  - apply (proj2 (KeyExists_after_CreateKey_and_DeleteKey CURRENT_USER
                    Fixture.test_path Fixture.test_reg)).
    vm_compute. reflexivity.
Defined.

(** C6.  When no value is stored under the root, path and name,
    [DeleteValue] returns a non-nil error.  When [DeleteValue] reports no
    error, the name is not in the list [EnumerateValues] returns next for
    that key, under whatever root and path the key is reached. *)
Theorem DeleteValue_spec (root : Key) (keyPath valueName : string) (r : reg) :
  (stored root keyPath valueName r = None ->
   exists e, result os (winreg.DeleteValue root keyPath valueName) r = Some e) /\
  (result os (winreg.DeleteValue root keyPath valueName) r = nil ->
   forall (root' : Key) (keyPath' : string),
     let r' := final os (winreg.DeleteValue root keyPath valueName) r in
     locate root' keyPath' r' = locate root keyPath r' ->
     valueName ∉ fst (result os (winreg.EnumerateValues root' keyPath') r')).
Proof.
  split.
  - intros H. destruct (DeleteValue_absent root keyPath valueName r H) as [e He].
    exists e. rewrite result_exec, He. reflexivity.
  - intros Hok root' keyPath' r'. subst r'. rewrite result_exec in Hok.
    rewrite result_exec, final_exec.
    destruct (DeleteValue_exec root keyPath valueName r Hok)
      as (l & rec & Hl & Hk & Hn & ->).
    rewrite !locate_set_keys, Hl. intros Hloc.
    destruct (EnumerateValues_exec root' keyPath'
                (set_keys (<[l := set_values (remove_value (fold r) valueName (k_values rec)) rec]>
                             (keys r)) r)) as [e ->].
    rewrite locate_set_keys, Hloc. cbn [keys set_keys]. rewrite lookup_insert_eq. cbn.
    apply remove_value_gone.
Qed.

Lemma DeleteValue_spec_example :
  (stored CURRENT_USER Fixture.test_path "missing" Fixture.test_reg = None /\
   exists e, result os (winreg.DeleteValue CURRENT_USER Fixture.test_path "missing")
               Fixture.test_reg = Some e) /\
  (result os (winreg.DeleteValue CURRENT_USER Fixture.test_path "count")
     Fixture.test_reg = nil /\
   "count"%string ∉
     fst (result os (winreg.EnumerateValues CURRENT_USER Fixture.test_path)
            (final os (winreg.DeleteValue CURRENT_USER Fixture.test_path "count")
               Fixture.test_reg))).
Proof.
  split; (split; [vm_compute; reflexivity|]).
  - apply (proj1 (DeleteValue_spec CURRENT_USER Fixture.test_path "missing"
                    Fixture.test_reg)).
    vm_compute. reflexivity.
  - apply (proj2 (DeleteValue_spec CURRENT_USER Fixture.test_path "count"
                    Fixture.test_reg));
      [vm_compute; reflexivity | reflexivity].
Defined.

(** C9.  On any system, [ValueExists] returns true exactly when [OpenKey]
    with the query right reports no error and [GetStringValue] of the name
    on the handle reports no error; every other answer, an open failure of
    any kind included, gives false.  On the in-memory registry, it returns
    true exactly when a value is stored under the name and its data is a
    string or an expandable string: a stored value of another type gives
    false. *)
Theorem ValueExists_spec (root : Key) (keyPath valueName : string) :
  (forall (W : Type) (h : handler W) (w : W),
     result h (winreg.ValueExists root keyPath valueName) w =
       match h _ (OpenKey root keyPath QUERY_VALUE) w with
       | ((_, Some _), _) => false
       | ((k, None), w1) =>
           match h _ (GetStringValue k valueName) w1 with
           | ((_, _, Some _), _) => false
           | ((_, _, None), _) => true
           end
       end) /\
  (forall r : reg,
     result os (winreg.ValueExists root keyPath valueName) r =
       match stored root keyPath valueName r with
       | Some (REG_SZ _ | REG_EXPAND_SZ _) => true
       | Some (REG_BINARY _ | REG_DWORD _ | REG_MULTI_SZ _ | REG_QWORD _) => false
       | None => false
       end).
Proof.
  split.
  - intros W h w. apply ValueExists_any_system.
  - intros r. rewrite result_exec, ValueExists_exec. cbn.
    destruct (stored root keyPath valueName r) as [[]|]; reflexivity.
Qed.

(** A DWORD is stored under [count], and [ValueExists] says no. *)
Example ValueExists_of_a_DWord :
  stored CURRENT_USER Fixture.test_path "count" Fixture.test_reg = Some (REG_DWORD 7) /\
  result os (winreg.ValueExists CURRENT_USER Fixture.test_path "count")
    Fixture.test_reg = false /\
  result os (winreg.ValueExists CURRENT_USER Fixture.test_path "title")
    Fixture.test_reg = true.
Proof. repeat split; vm_compute; reflexivity. Qed.

(** Access denied on open: false, and the only call made is the open. *)
Example ValueExists_access_denied :
  result Fixture.denied (winreg.ValueExists LOCAL_MACHINE "SAM" "x") tt = false /\
  calls Fixture.denied (winreg.ValueExists LOCAL_MACHINE "SAM" "x") tt
  = [Event (OpenKey LOCAL_MACHINE "SAM" QUERY_VALUE) (0, Some ERROR_ACCESS_DENIED)].
Proof. split; reflexivity. Qed.

(** C10.  On any system, [WriteInt64Value] hands [int32(data)] to
    [SetIntValue], and [ReadInt64Value] returns the conversion to int64 of
    the 32-bit integer [GetIntValue] read.  On the in-memory registry,
    [ReadInt64Value] always returns a value in the int32 range, and after a
    [WriteInt64Value] of [data] that reports no error it returns
    [int32(data)], which is [data] exactly when [data] is in the int32
    range. *)
Theorem Int64_pair_keeps_32_bits (root : Key) (keyPath valueName : string)
  (data : Z) (r : reg) :
  (forall (W : Type) (h : handler W) (w : W),
     omap int_written (calls h (winreg.WriteInt64Value root keyPath valueName data) w) =
       match h _ (OpenKey root keyPath WRITE) w with
       | ((_, Some _), _) => []
       | ((_, None), _) => [int32 data]
       end) /\
  (forall (W : Type) (h : handler W) (w : W),
     result h (winreg.ReadInt64Value root keyPath valueName) w =
       match h _ (OpenKey root keyPath QUERY_VALUE) w with
       | ((_, Some e), _) => (0, Some e)
       | ((k, None), w1) =>
           match h _ (GetIntValue k valueName) w1 with
           | ((_, _, Some e), _) => (0, Some e)
           | ((value, _, None), _) => (int64 value, nil)
           end
       end) /\
  is_int32 (fst (result os (winreg.ReadInt64Value root keyPath valueName) r)) /\
  (result os (winreg.WriteInt64Value root keyPath valueName data) r = nil ->
   result os (winreg.ReadInt64Value root keyPath valueName)
     (final os (winreg.WriteInt64Value root keyPath valueName data) r)
   = (int32 data, nil)) /\
  (int32 data = data <-> is_int32 data).
Proof.
  split; [|split; [|split; [|split]]].
  - intros W h w. apply WriteInt64Value_any_system.
  - intros W h w. apply ReadInt64Value_any_system.
  - rewrite result_exec.
    destruct (stored root keyPath valueName r) as [v|] eqn:Hs.
    + pose proof (reader_stored KInt64 _ _ _ _ _ Hs) as E.
      cbv beta iota delta [reader writer carrier zero] in E. rewrite E.
      destruct v; cbn; try (unfold is_int32; lia).
      rewrite int64_of_int32 by apply int32_range. apply int32_range.
    + destruct (reader_absent KInt64 _ _ _ _ Hs) as [e E].
      cbv beta iota delta [reader writer carrier zero] in E. rewrite E. cbn.
      unfold is_int32. lia.
  - intros Hok. rewrite result_exec in Hok. rewrite result_exec, final_exec.
    pose proof (writer_stores KInt64 root keyPath valueName data r) as Hst.
    cbv beta iota delta [reader writer carrier zero] in Hst.
    destruct (Hst Hok) as (d & Hd & Hs). cbn in Hd. injection Hd as <-.
    pose proof (reader_stored KInt64 _ _ _ _ _ Hs) as E.
    cbv beta iota delta [reader writer carrier zero] in E. rewrite E. cbn.
    rewrite !int32_uint32, (int32_id (int32 data)) by apply int32_range.
    rewrite int64_of_int32 by apply int32_range. reflexivity.
  - split; [apply int32_fixed | apply int32_id].
Qed.

Lemma Int64_pair_keeps_32_bits_example :
  let w := winreg.WriteInt64Value CURRENT_USER Fixture.test_path "big" 4294967301 in
  result os w Fixture.test_reg = nil /\
  result os (winreg.ReadInt64Value CURRENT_USER Fixture.test_path "big")
    (final os w Fixture.test_reg) = (int32 4294967301, nil) /\
  int32 4294967301 = 5.
Proof.
  cbv zeta. split; [vm_compute; reflexivity|]. split; [|vm_compute; reflexivity].
  apply (proj1 (proj2 (proj2 (proj2 (Int64_pair_keeps_32_bits CURRENT_USER
           Fixture.test_path "big" 4294967301 Fixture.test_reg))))).
  vm_compute. reflexivity.
Defined.

(** * Further properties

    The rest of the development covers how the functions behave beyond the
    claims above: what they return with an error, which calls they make,
    what they leave untouched, and how they compose.  As before, a property
    of the control flow is proved for every system, a property of the
    registry contents for the in-memory registry. *)

(** X1.  On any system, a typed reader that returns a non-nil error returns
    the zero value of its type with it: whatever data the system handed
    back together with the error is dropped. *)
Theorem readers_return_zero_with_error
  (W : Type) (h : handler W) (w : W) (k : kind) (root : Key)
  (keyPath valueName : string) :
  snd (result h (reader k root keyPath valueName) w) = nil \/
  fst (result h (reader k root keyPath valueName) w) = zero k.
Proof. destruct k; run_all h; auto. Qed.

(** X2.  On any system, [EnumerateSubKeys] and [EnumerateValues] return
    the empty list whenever they return a non-nil error: a partial list of
    names is never returned with an error. *)
Theorem enumerations_return_empty_with_error
  (W : Type) (h : handler W) (w : W) (root : Key) (keyPath : string) :
  (snd (result h (winreg.EnumerateSubKeys root keyPath) w) = nil \/
   fst (result h (winreg.EnumerateSubKeys root keyPath) w) = []) /\
  (snd (result h (winreg.EnumerateValues root keyPath) w) = nil \/
   fst (result h (winreg.EnumerateValues root keyPath) w) = []).
Proof. split; run_all h; auto. Qed.


(** X4.  On any system, the typed readers, [ReadStringValueWithDefault],
    [KeyExists], [ValueExists], [EnumerateValues] and [EnumerateSubKeys]
    never call an operation that creates or deletes a key or sets or
    deletes a value. *)
Theorem read_only_functions_call_no_mutator
  (W : Type) (h : handler W) (w : W) (A : Type) (f : fn A) :
  read_only (group_of f) = true ->
  forallb (fun e => negb (mutates e)) (calls h (body f) w) = true.
Proof.
  destruct f; cbn; intros H; try discriminate; run_all h; reflexivity.
Qed.

Lemma read_only_functions_call_no_mutator_example :
  read_only (group_of (F_ValueExists CURRENT_USER Fixture.test_path "title")) = true /\
  forallb (fun e => negb (mutates e))
    (calls os (body (F_ValueExists CURRENT_USER Fixture.test_path "title"))
       Fixture.test_reg) = true.
Proof.
  split; [reflexivity|].
  apply (read_only_functions_call_no_mutator reg os Fixture.test_reg bool
           (F_ValueExists CURRENT_USER Fixture.test_path "title")).
  reflexivity.
Defined.

(** Case analysis on the answer of the in-memory registry to the [OpenKey]
    of a function, and the steps of the function on the opened key. *)
Ltac open_cases :=
  cbn;
  match goal with
  | |- context [open_key ?root ?path ?acc ?r] =>
      let l := fresh "l" in
      let kr := fresh "kr" in
      let Hl := fresh "Hl" in
      let Hk := fresh "Hk" in
      let key := fresh "key" in
      let hs := fresh "hs" in
      let Ho := fresh "Ho" in
      let Hs := fresh "Hs" in
      let e := fresh "e" in
      destruct (locate root path r) as [l|] eqn:Hl;
      [ destruct (keys r !! l) as [kr|] eqn:Hk;
        [ destruct (open_key_found root path acc r l kr Hl Hk) as (key & hs & Ho & Hs)
        | destruct (open_key_missing root path acc r) as [e Ho];
          [rewrite Hl; intros ? [= <-]; exact Hk|] ]
      | destruct (open_key_missing root path acc r) as [e Ho];
        [rewrite Hl; intros ? [=]|] ];
      rewrite Ho; cbn
  end.

Ltac model_step :=
  first
    [ progress cbn
    | match goal with
      | Hs : session _ _ _ _ _ |- _ =>
          first [ rewrite (session_values _ _ _ _ _ _ _ Hs) by reflexivity
                | rewrite (session_close _ _ _ _ _ _ Hs) by reflexivity ]
      end
    | rewrite set_handles_back
    | progress unfold get_typed, get_value, set_value, set_string, set_strings,
        delete_value, read_value_names, read_subkey_names, read_names
    | progress simplify_eq
    | case_match ].

Ltac model_run := repeat model_step.

(** X5.  On the in-memory registry, the same functions leave the registry
    as they found it: keys, values and the table of open handles. *)
Theorem read_only_functions_leave_registry (A : Type) (f : fn A) (r : reg) :
  read_only (group_of f) = true ->
  final os (body f) r = r.
Proof.
  rewrite final_exec.
  destruct f; cbn [group_of read_only]; intros H; try discriminate; clear H;
    open_cases; model_run; try reflexivity.
Qed.

Lemma read_only_functions_leave_registry_example :
  read_only (group_of (F_EnumerateValues CURRENT_USER Fixture.test_path)) = true /\
  final os (body (F_EnumerateValues CURRENT_USER Fixture.test_path)) Fixture.test_reg
  = Fixture.test_reg.
Proof.
  split; [reflexivity|].
  apply (read_only_functions_leave_registry _
           (F_EnumerateValues CURRENT_USER Fixture.test_path) Fixture.test_reg).
  reflexivity.
Defined.

(** Deleting a key through a handle changes keys only. *)
Lemma delete_key_handles (k : Key) (path : string) (r : reg) :
  handles (snd (delete_key k path r)) = handles r.
Proof. unfold delete_key. repeat case_match; reflexivity. Qed.

(** X6.  On the in-memory registry, every function but [CreateKey] returns
    with the table of open handles as it was when the function was called,
    on success and on failure. *)
Theorem handle_table_preserved (A : Type) (f : fn A) (r : reg) :
  group_of f <> KeyCreation ->
  handles (final os (body f) r) = handles r.
Proof.
  rewrite final_exec.
  destruct f; cbn [group_of]; intros H; try congruence; clear H.
  all: try (open_cases; model_run; reflexivity).
  - (* DeleteSubKey *)
    open_cases; try reflexivity.
    pose proof (delete_key_handles key subKeyName (set_handles hs r)) as Hd.
    destruct (delete_key key subKeyName (set_handles hs r)) as [e s].
    cbn in Hd. destruct e; cbn; rewrite (session_close _ _ _ _ _ _ Hs) by exact Hd;
      reflexivity.
  - (* DeleteKey *)
    cbn. pose proof (delete_key_handles root keyPath r) as Hd.
    destruct (delete_key root keyPath r). exact Hd.
Qed.

Lemma handle_table_preserved_example :
  group_of (F_WriteDWordValue CURRENT_USER Fixture.test_path "count" 9) <> KeyCreation /\
  handles (final os (body (F_WriteDWordValue CURRENT_USER Fixture.test_path "count" 9))
             Fixture.test_reg)
  = handles Fixture.test_reg.
Proof.
  split; [discriminate|].
  apply (handle_table_preserved _
           (F_WriteDWordValue CURRENT_USER Fixture.test_path "count" 9)
           Fixture.test_reg).
  discriminate.
Defined.

(** ** What changes and what does not *)

Lemma lookup_store_other (f : string -> string) (name name' : string)
  (v : regvalue) (vs : values) :
  name_key f name' <> name_key f name ->
  lookup_value f name' (store_value f name v vs) = lookup_value f name' vs.
Proof.
  intros Hne. induction vs as [|[n v'] vs IH]; cbn.
  - replace (same_name f name' (to_valid name)) with false; [reflexivity|].
    symmetry. apply same_name_false. rewrite name_key_valid. exact Hne.
  - destruct (same_name f name n) eqn:E; cbn.
    + apply same_name_true in E.
      replace (same_name f name' n) with false; [reflexivity|].
      symmetry. apply same_name_false. congruence.
    + rewrite IH. reflexivity.
Qed.

Lemma lookup_remove (f : string -> string) (name : string) (vs : values) :
  lookup_value f name (remove_value f name vs) = None.
Proof.
  induction vs as [|[n v] vs IH]; cbn; [reflexivity|].
  destruct (same_name f name n) eqn:E; [exact IH|]. cbn. rewrite E. exact IH.
Qed.

Lemma lookup_remove_other (f : string -> string) (name name' : string) (vs : values) :
  name_key f name' <> name_key f name ->
  lookup_value f name' (remove_value f name vs) = lookup_value f name' vs.
Proof.
  intros Hne. induction vs as [|[n v] vs IH]; cbn; [reflexivity|].
  destruct (same_name f name n) eqn:E; cbn.
  - apply same_name_true in E.
    replace (same_name f name' n) with false; [exact IH|].
    symmetry. apply same_name_false. congruence.
  - rewrite IH. reflexivity.
Qed.

(** Changing the values of one key changes what is stored there only. *)
Lemma stored_update (root' : Key) (path' name' : string) (r : reg) (l : loc)
  (rec : keyrec) (vs' : values) :
  keys r !! l = Some rec ->
  (locate root' path' r = Some l ->
   lookup_value (fold r) name' vs' = lookup_value (fold r) name' (k_values rec)) ->
  stored root' path' name' (set_keys (<[l := set_values vs' rec]> (keys r)) r)
  = stored root' path' name' r.
Proof.
  intros Hk Hsame. unfold stored. rewrite locate_set_keys.
  destruct (has_nul name'); [reflexivity|].
  destruct (locate root' path' r) as [l'|] eqn:Hl; [|reflexivity].
  cbn [keys set_keys fold].
  destruct (decide (l = l')) as [->|Hne].
  - rewrite lookup_insert_eq, Hk. cbn. apply Hsame. reflexivity.
  - rewrite lookup_insert_ne by exact Hne. reflexivity.
Qed.

(** X7.  On the in-memory registry, every [CreateKey] that reports no error
    leaves one more open handle behind: the returned key was not in the
    table of open handles before the call, is in it afterwards, and the
    table has grown by one. *)
Theorem CreateKey_leaks_one_handle (root : Key) (keyPath : string) (r : reg) :
  snd (result os (winreg.CreateKey root keyPath) r) = nil ->
  let key := fst (result os (winreg.CreateKey root keyPath) r) in
  let r' := final os (winreg.CreateKey root keyPath) r in
  handles r !! key = None /\
  is_Some (handles r' !! key) /\
  size (handles r') = S (size (handles r)).
Proof.
  intros Hok key r'. subst key r'. rewrite result_exec in Hok.
  rewrite result_exec, final_exec.
  destruct (CreateKey_exec root keyPath r Hok) as (h & _ & Hres & -> & -> & Hroot).
  cbn [handles set_keys set_handles opened_reg].
  split; [apply alloc_fresh|]. split.
  - rewrite lookup_insert_eq. eauto.
  - apply map_size_insert_None. apply alloc_fresh.
Qed.

Lemma CreateKey_leaks_one_handle_example :
  snd (result os (winreg.CreateKey CURRENT_USER Fixture.test_path) Fixture.test_reg) = nil /\
  size (handles (final os (winreg.CreateKey CURRENT_USER Fixture.test_path)
                   Fixture.test_reg))
  = S (size (handles Fixture.test_reg)).
Proof.
  split; [vm_compute; reflexivity|].
  apply (CreateKey_leaks_one_handle CURRENT_USER Fixture.test_path Fixture.test_reg).
  vm_compute. reflexivity.
Defined.

(** X9.  On the in-memory registry, a typed writer does not create keys:
    when the root and path lead to no key, it returns a non-nil error and
    the registry is unchanged. *)
Theorem writer_on_missing_key (k : kind) (root : Key) (keyPath valueName : string)
  (v : carrier k) (r : reg) :
  (forall l, locate root keyPath r = Some l -> keys r !! l = None) ->
  (exists e, result os (writer k root keyPath valueName v) r = Some e) /\
  final os (writer k root keyPath valueName v) r = r.
Proof.
  rewrite !result_exec, final_exec. intros H.
  destruct (writer_fails k root keyPath valueName v r) as [e ->]; eauto.
Qed.

Lemma writer_on_missing_key_example :
  (exists e, result os (winreg.WriteQWordValue CURRENT_USER Fixture.test_path "big" 5)
               Fixture.boot = Some e) /\
  final os (winreg.WriteQWordValue CURRENT_USER Fixture.test_path "big" 5) Fixture.boot
  = Fixture.boot.
Proof.
  apply (writer_on_missing_key KQWord CURRENT_USER Fixture.test_path "big" 5
           Fixture.boot).
  intros l Hl. vm_compute in Hl. injection Hl as <-. vm_compute. reflexivity.
Defined.

(** X11.  On the in-memory registry, after a [DeleteValue] that reports no
    error the value is gone for every function: each typed reader returns
    its zero value and a non-nil error, [ValueExists] returns false,
    [ReadStringValueWithDefault] returns the default, and a second
    [DeleteValue] returns a non-nil error. *)
Theorem DeleteValue_then_absent (root : Key) (keyPath valueName : string) (r : reg) :
  result os (winreg.DeleteValue root keyPath valueName) r = nil ->
  let r' := final os (winreg.DeleteValue root keyPath valueName) r in
  (forall k : kind, exists e,
     result os (reader k root keyPath valueName) r' = (zero k, Some e)) /\
  result os (winreg.ValueExists root keyPath valueName) r' = false /\
  (forall defaultValue : string,
     result os (winreg.ReadStringValueWithDefault root keyPath valueName defaultValue) r'
     = (defaultValue, nil)) /\
  (exists e, result os (winreg.DeleteValue root keyPath valueName) r' = Some e).
Proof.
  intros Hok r'. subst r'. rewrite result_exec in Hok. rewrite final_exec.
  destruct (DeleteValue_exec root keyPath valueName r Hok)
    as (l & rec & Hl & Hk & Hn & ->).
  set (r' := set_keys _ r).
  assert (stored root keyPath valueName r' = None) as Hs.
  { subst r'. erewrite stored_at;
      [|rewrite locate_set_keys; exact Hl|apply lookup_insert_eq].
    rewrite Hn. apply lookup_remove. }
  split; [|split; [|split]].
  - intros k. destruct (reader_absent k _ _ _ _ Hs) as [e He].
    exists e. rewrite result_exec, He. reflexivity.
  - rewrite result_exec, ValueExists_exec, Hs. reflexivity.
  - intros d. rewrite result_exec, ReadStringValueWithDefault_exec, Hs. reflexivity.
  - destruct (DeleteValue_absent _ _ _ _ Hs) as [e He].
    exists e. rewrite result_exec, He. reflexivity.
Qed.

Lemma DeleteValue_then_absent_example :
  result os (winreg.DeleteValue CURRENT_USER Fixture.test_path "title") Fixture.test_reg
  = nil /\
  result os (winreg.ValueExists CURRENT_USER Fixture.test_path "title")
    (final os (winreg.DeleteValue CURRENT_USER Fixture.test_path "title")
       Fixture.test_reg) = false.
Proof.
  split; [vm_compute; reflexivity|].
  apply (DeleteValue_then_absent CURRENT_USER Fixture.test_path "title"
           Fixture.test_reg).
  vm_compute. reflexivity.
Defined.

(** [make_keys] only adds keys, on the way down, each with the name of its
    component and no values. *)
Lemma make_keys_lookup (f : string -> string) (root : Z) (comps base : list string)
  (ks : gmap loc keyrec) (l : loc) :
  make_keys f root base comps ks !! l = ks !! l \/
  (ks !! l = None /\
   exists pre c suf, comps = pre ++ c :: suf /\
     l = (root, base ++ map (name_key f) (pre ++ [c])) /\
     make_keys f root base comps ks !! l
     = Some {| k_name := to_valid c; k_values := [] |}).
Proof.
  revert base ks. induction comps as [|c cs IH]; intros base ks; cbn [make_keys];
    [left; reflexivity|].
  destruct (ks !! (root, base ++ [name_key f c])) as [rec|] eqn:E; cbv iota.
  - destruct (IH (base ++ [name_key f c]) ks)
      as [H|(Hn & pre & c' & suf & -> & -> & Hs)].
    + left. exact H.
    + right. split; [exact Hn|]. exists (c :: pre), c', suf.
      split; [reflexivity|]. split; [|exact Hs].
      cbn [app map]. rewrite <- app_assoc. reflexivity.
  - destruct (IH (base ++ [name_key f c])
                (<[(root, base ++ [name_key f c]) :=
                     {| k_name := to_valid c; k_values := [] |}]> ks))
      as [H|(Hn & pre & c' & suf & -> & -> & Hs)].
    + destruct (decide (l = (root, base ++ [name_key f c]))) as [->|Hne].
      * right. split; [exact E|]. exists [], c, cs.
        split; [reflexivity|]. split; [reflexivity|].
        etrans; [exact H|apply lookup_insert_eq].
      * left. etrans; [exact H|]. apply lookup_insert_ne. congruence.
    + right.
      destruct (decide ((root, (base ++ [name_key f c]) ++ map (name_key f) (pre ++ [c']))
                        = (root, base ++ [name_key f c]))) as [Heq|Hne].
      * rewrite Heq, lookup_insert_eq in Hn. discriminate.
      * rewrite lookup_insert_ne in Hn by congruence.
        split; [exact Hn|]. exists (c :: pre), c', suf.
        split; [reflexivity|]. split; [|exact Hs].
        cbn [app map]. rewrite <- app_assoc. reflexivity.
Qed.

Lemma stored_after_make_keys (f g : string -> string) (l : loc) (name : string)
  (root : Z) (base comps : list string) (ks : gmap loc keyrec) :
  match make_keys f root base comps ks !! l with
  | Some rec => lookup_value g name (k_values rec)
  | None => None
  end
  = match ks !! l with Some rec => lookup_value g name (k_values rec) | None => None end.
Proof.
  pose (F := fun o : option keyrec =>
               match o with
               | Some rec => lookup_value g name (k_values rec)
               | None => None
               end).
  change (F (make_keys f root base comps ks !! l) = F (ks !! l)).
  destruct (make_keys_lookup f root comps base ks l)
    as [H|(H1 & pre & c & suf & _ & _ & H2)].
  - exact (f_equal F H).
  - etrans; [exact (f_equal F H2)|]. symmetry. exact (f_equal F H1).
Qed.

(** X14.  On the in-memory registry, [CreateKey] changes no stored value:
    every value reached through a valid root reads after the call as it
    did before, whether the key was created, already there, or the call
    failed. *)
Theorem CreateKey_keeps_values (root : Key) (keyPath : string) (r : reg)
  (root' : Key) (keyPath' valueName' : string) :
  is_Some (resolve root' r) ->
  stored root' keyPath' valueName' (final os (winreg.CreateKey root keyPath) r)
  = stored root' keyPath' valueName' r.
Proof.
  intros [h' Hres']. rewrite final_exec. cbn. unfold create_key.
  destruct (has_nul keyPath); [reflexivity|].
  destruct (resolve root r) as [h|] eqn:Hres; [|reflexivity].
  destruct (keys r !! h_loc h) as [vs|] eqn:Hk; [|reflexivity].
  cbn. unfold stored, locate.
  destruct (has_nul valueName'); [reflexivity|].
  destruct (has_nul keyPath'); [reflexivity|].
  erewrite resolve_more; [|exact Hres'|reflexivity].
  rewrite Hres'. cbn. apply stored_after_make_keys.
Qed.

Lemma CreateKey_keeps_values_example :
  is_Some (resolve CURRENT_USER Fixture.test_reg) /\
  stored CURRENT_USER Fixture.test_path "count"
    (final os (winreg.CreateKey CURRENT_USER Fixture.test_path) Fixture.test_reg)
  = Some (REG_DWORD 7).
Proof.
  split; [vm_compute; eauto|].
  etrans.
  - apply (CreateKey_keeps_values CURRENT_USER Fixture.test_path Fixture.test_reg
             CURRENT_USER Fixture.test_path "count").
    vm_compute. eauto.
  - vm_compute. reflexivity.
Defined.

(** ** Subkeys *)

Lemma components_from_join (s t cur : string) :
  components_from (s +:+ "\" +:+ t) cur = components_from s cur ++ components t.
Proof.
  revert cur. induction s as [|c s IH]; intros cur.
  - reflexivity.
  - change (String c s +:+ "\" +:+ t) with (String c (s +:+ "\" +:+ t)). cbn.
    destruct (Ascii.eqb c "\"); [|apply IH].
    rewrite IH, app_assoc. reflexivity.
Qed.

Lemma components_join (s t : string) :
  components (s +:+ "\" +:+ t) = components s ++ components t.
Proof. apply components_from_join. Qed.

Lemma below_join (f : string -> string) (l : loc) (s t : string) :
  below f l (s +:+ "\" +:+ t) = below f (below f l s) t.
Proof.
  unfold below. cbn. rewrite components_join, map_app, app_assoc. reflexivity.
Qed.

Lemma has_nul_app (s t : string) : has_nul (s +:+ t) = has_nul s || has_nul t.
Proof.
  induction s as [|a s IH]; [reflexivity|].
  change (String a s +:+ t) with (String a (s +:+ t)). cbn [has_nul].
  rewrite IH, orb_assoc. reflexivity.
Qed.

(** The key a path below a path leads to. *)
Lemma locate_join_Some (root : Key) (s t : string) (r : reg) (l : loc) :
  locate root s r = Some l ->
  has_nul t = false ->
  locate root (s +:+ "\" +:+ t) r = Some (below (fold r) l t).
Proof.
  intros H1 Ht. apply locate_Some in H1 as (Hs & h & Hres & ->).
  apply locate_Some. split.
  - rewrite !has_nul_app, Hs, Ht. reflexivity.
  - exists h. split; [exact Hres|]. symmetry. apply below_join.
Qed.

Lemma strip_app (p s : list string) : strip p (p ++ s) = Some s.
Proof.
  induction p as [|a p IH]; cbn; [reflexivity|]. rewrite String.eqb_refl. exact IH.
Qed.

Lemma strip_Some (p q s : list string) : strip p q = Some s -> q = p ++ s.
Proof.
  revert q. induction p as [|a p IH]; intros q; cbn.
  - intros [= ->]. reflexivity.
  - destruct q as [|b q]; [discriminate|].
    destruct (String.eqb a b) eqn:E; [|discriminate].
    apply String.eqb_eq in E. subst b. intros H. rewrite (IH q H). reflexivity.
Qed.

Lemma child_name_Some (l l' : loc) (n : string) :
  child_name l l' = Some n <-> l' = (fst l, snd l ++ [n]).
Proof.
  unfold child_name. destruct l as [a p], l' as [a' p']. cbn. split.
  - destruct (a =? a') eqn:E; [|discriminate]. apply Z.eqb_eq in E. subst a'.
    destruct (strip p p') as [[|m [|]]|] eqn:S; try discriminate.
    intros [= ->]. rewrite (strip_Some _ _ _ S). reflexivity.
  - intros [= -> ->]. rewrite Z.eqb_refl, strip_app. reflexivity.
Qed.

(** A name is listed below a key when a key with that name is filed under
    it. *)
Lemma elem_of_subkey_names (f : string -> string) (l : loc) (ks : gmap loc keyrec)
  (n : string) :
  n ∈ subkey_names f l ks <->
  exists rec, ks !! (fst l, snd l ++ [name_key f n]) = Some rec /\ k_name rec = n.
Proof.
  unfold subkey_names. rewrite list_elem_of_omap. split.
  - intros ([l' rec] & Hin & Hc). unfold listed_child in Hc. cbn [fst snd] in Hc.
    destruct (child_name l l') as [x|] eqn:Hx; [|discriminate].
    destruct (String.eqb (name_key f (k_name rec)) x) eqn:E; [|discriminate].
    injection Hc as <-. apply String.eqb_eq in E. subst x.
    apply child_name_Some in Hx. subst l'.
    apply elem_of_map_to_list in Hin. exists rec. auto.
  - intros (rec & Hrec & <-).
    exists ((fst l, snd l ++ [name_key f (k_name rec)]), rec). split.
    + apply elem_of_map_to_list. exact Hrec.
    + unfold listed_child. cbn [fst snd].
      rewrite (proj2 (child_name_Some l _ (name_key f (k_name rec))) eq_refl).
      rewrite String.eqb_refl. reflexivity.
Qed.

Lemma EnumerateSubKeys_exec (root : Key) (path : string) (r : reg) :
  exists e,
  fst (exec os (winreg.EnumerateSubKeys root path) r)
  = match locate root path r with
    | Some l =>
        match keys r !! l with
        | Some _ => (subkey_names (fold r) l (keys r), nil)
        | None => ([], Some e)
        end
    | None => ([], Some e)
    end.
Proof.
  destruct (locate root path r) as [l|] eqn:Hl.
  - destruct (keys r !! l) as [rec|] eqn:Hk.
    + destruct (open_key_found root path ENUMERATE_SUB_KEYS r l rec Hl Hk)
        as (key & hs & Ho & Hs).
      exists EOF. enter Ho. unfold read_subkey_names. in_session Hs. rewrite Hk.
      in_session Hs. reflexivity.
    + destruct (open_key_missing root path ENUMERATE_SUB_KEYS r) as [e Ho].
      { rewrite Hl. intros ? [= <-]. exact Hk. }
      exists e. enter Ho. reflexivity.
  - destruct (open_key_missing root path ENUMERATE_SUB_KEYS r) as [e Ho].
    { rewrite Hl. intros ? [=]. }
    exists e. enter Ho. reflexivity.
Qed.

(** The registry after [DeleteSubKey] reported no error. *)
Lemma DeleteSubKey_exec (root : Key) (path sub : string) (r : reg) :
  fst (exec os (winreg.DeleteSubKey root path sub) r) = nil ->
  exists l, locate root path r = Some l /\
    is_Some (keys r !! l) /\
    has_nul sub = false /\
    snd (exec os (winreg.DeleteSubKey root path sub) r)
    = set_keys (delete (below (fold r) l sub) (keys r)) r.
Proof.
  open_cases; try discriminate.
  destruct (session_resolve r (set_handles hs r) l WRITE key hs Hs eq_refl) as [a Hr].
  unfold delete_key. rewrite Hr. cbn [h_loc].
  destruct (has_nul sub) eqn:Hn; model_run; try discriminate.
  intros _. exists l. split; [reflexivity|]. split; [eauto|]. split; reflexivity.
Qed.

(** X18.  On the in-memory registry, after a [DeleteSubKey] that reports
    no error, [KeyExists] on the path made of [keyPath], a backslash and
    [subKeyName] returns false, and when [subKeyName] is a single name
    [EnumerateSubKeys] on [keyPath] no longer lists it. *)
Theorem DeleteSubKey_then_gone (root : Key) (keyPath subKeyName : string) (r : reg) :
  result os (winreg.DeleteSubKey root keyPath subKeyName) r = nil ->
  let r' := final os (winreg.DeleteSubKey root keyPath subKeyName) r in
  result os (winreg.KeyExists root (keyPath +:+ "\" +:+ subKeyName)) r' = false /\
  forall c : string,
    components subKeyName = [c] ->
    c ∉ fst (result os (winreg.EnumerateSubKeys root keyPath) r').
Proof.
  intros Hok r'. subst r'. rewrite result_exec in Hok.
  rewrite !result_exec, final_exec.
  destruct (DeleteSubKey_exec root keyPath subKeyName r Hok) as (l & Hl & Hp & Hn & ->).
  split.
  - rewrite KeyExists_exec. cbn [fst]. rewrite locate_set_keys.
    rewrite (locate_join_Some root keyPath subKeyName r l Hl Hn).
    cbn [keys set_keys]. apply bool_decide_eq_false_2. intros [x Hx].
    rewrite lookup_delete_eq in Hx. discriminate.
  - intros c Hcs.
    destruct (EnumerateSubKeys_exec root keyPath
                (set_keys (delete (below (fold r) l subKeyName) (keys r)) r)) as [e ->].
    rewrite locate_set_keys, Hl. cbn [keys set_keys fold].
    destruct (delete (below (fold r) l subKeyName) (keys r) !! l);
      cbn [fst]; [|apply not_elem_of_nil].
    rewrite elem_of_subkey_names. intros (rec & Hrec & _).
    assert (below (fold r) l subKeyName = (fst l, snd l ++ [name_key (fold r) c])) as Hb.
    { unfold below. rewrite Hcs. reflexivity. }
    rewrite <- Hb, lookup_delete_eq in Hrec. discriminate.
Qed.

Lemma DeleteSubKey_then_gone_example :
  result os (winreg.DeleteSubKey CURRENT_USER "Software\gowinreg" "Test")
    Fixture.test_reg = nil /\
  result os (winreg.KeyExists CURRENT_USER ("Software\gowinreg" +:+ "\" +:+ "Test"))
    (final os (winreg.DeleteSubKey CURRENT_USER "Software\gowinreg" "Test")
       Fixture.test_reg) = false.
Proof.
  split; [vm_compute; reflexivity|].
  apply (DeleteSubKey_then_gone CURRENT_USER "Software\gowinreg" "Test"
           Fixture.test_reg).
  vm_compute. reflexivity.
Defined.

(** X20.  On the in-memory registry, values do not survive the deletion of
    their key: when [DeleteKey] and then [CreateKey] on the same root and
    path report no error, [EnumerateValues] returns the empty list with a
    nil error. *)
Theorem DeleteKey_then_CreateKey_is_empty (root : Key) (keyPath : string) (r : reg) :
  result os (winreg.DeleteKey root keyPath) r = nil ->
  let r1 := final os (winreg.DeleteKey root keyPath) r in
  snd (result os (winreg.CreateKey root keyPath) r1) = nil ->
  result os (winreg.EnumerateValues root keyPath)
    (final os (winreg.CreateKey root keyPath) r1) = ([], nil).
Proof.
  intros Hdel r1 Hok. subst r1. rewrite result_exec in Hdel.
  rewrite result_exec, final_exec in Hok. rewrite result_exec, !final_exec.
  destruct (DeleteKey_exec root keyPath r Hdel) as (l & rec & Hl & Hk & _ & _ & Hr1).
  rewrite Hr1 in Hok |- *.
  destruct (CreateKey_exec root keyPath _ Hok) as (h & Hn & Hres & _ & -> & Hroot).
  cbn [keys set_keys fold] in *.
  assert (l = below (fold r) (h_loc h) keyPath) as Hlh.
  { apply locate_Some in Hl as (_ & h0 & Hres0 & ->).
    change (resolve root (set_keys ?ks r)) with (resolve root r) in Hres. congruence. }
  set (r2 := set_keys _ _).
  assert (locate root keyPath r2 = Some l) as Hl2.
  { subst r2. eapply locate_more; [exact Hl|reflexivity|reflexivity]. }
  destruct (EnumerateValues_exec root keyPath r2) as [e ->]. rewrite Hl2.
  subst r2. cbn [keys set_keys].
  destruct (make_keys_lookup (fold r) (fst (h_loc h)) (components keyPath)
              (snd (h_loc h)) (delete l (keys r)) l)
    as [H|(_ & pre & c & suf & _ & _ & Hs)].
  - exfalso.
    assert (is_Some (make_keys (fold r) (fst (h_loc h)) (snd (h_loc h))
                       (components keyPath) (delete l (keys r))
                     !! below (fold r) (h_loc h) keyPath)) as [x Hx].
    { unfold below. apply make_keys_present. destruct (h_loc h); exact Hroot. }
    rewrite <- Hlh, H, lookup_delete_eq in Hx. discriminate.
  - rewrite Hs. reflexivity.
Qed.

Lemma DeleteKey_then_CreateKey_is_empty_example :
  result os (winreg.DeleteKey CURRENT_USER Fixture.test_path) Fixture.test_reg = nil /\
  result os (winreg.EnumerateValues CURRENT_USER Fixture.test_path)
    (final os (winreg.CreateKey CURRENT_USER Fixture.test_path)
       (final os (winreg.DeleteKey CURRENT_USER Fixture.test_path) Fixture.test_reg))
  = ([], nil).
Proof.
  split; [vm_compute; reflexivity|].
  apply (DeleteKey_then_CreateKey_is_empty CURRENT_USER Fixture.test_path
           Fixture.test_reg).
  - vm_compute. reflexivity.
  - vm_compute. reflexivity.
Defined.

(** ** Frames and compositions *)

(** X8.  On the in-memory registry, a typed writer changes no value but
    the one it names: a value under a name that the registry does not
    identify with the written one (names are compared after their
    conversion to UTF-16, by the rule of the system, which ignores case)
    reads as before in every key, whether the write succeeded or not. *)
Theorem writer_frame (k : kind) (root : Key) (keyPath valueName : string)
  (v : carrier k) (r : reg) (root' : Key) (keyPath' valueName' : string) :
  name_key (fold r) valueName' <> name_key (fold r) valueName ->
  stored root' keyPath' valueName' (final os (writer k root keyPath valueName v) r)
  = stored root' keyPath' valueName' r.
Proof.
  intros Hother. rewrite final_exec.
  destruct (fst (exec os (writer k root keyPath valueName v) r)) as [e|] eqn:Hr.
  - destruct (locate root keyPath r) as [l|] eqn:Hl.
    2:{ destruct (writer_fails k root keyPath valueName v r) as [e' ->]; [|reflexivity].
        left. rewrite Hl. intros ? [=]. }
    destruct (keys r !! l) as [rec|] eqn:Hk.
    2:{ destruct (writer_fails k root keyPath valueName v r) as [e' ->]; [|reflexivity].
        left. rewrite Hl. intros ? [= <-]. exact Hk. }
    destruct (has_nul valueName) eqn:Hn.
    { destruct (writer_fails k root keyPath valueName v r) as [e' ->]; auto. }
    destruct (written k v) as [d|] eqn:Hd.
    2:{ destruct (writer_fails k root keyPath valueName v r) as [e' ->]; auto. }
    rewrite (writer_exec k root keyPath valueName v r l rec d Hl Hk Hn Hd) in Hr.
    discriminate.
  - destruct (writer_ok _ _ _ _ _ _ Hr) as (l & rec & d & Hl & Hk & Hn & Hd).
    rewrite (writer_exec k root keyPath valueName v r l rec d Hl Hk Hn Hd). cbn [snd].
    apply stored_update; [exact Hk|]. intros _. apply lookup_store_other, Hother.
Qed.

Lemma writer_frame_example :
  name_key (fold Fixture.test_reg) "title" <> name_key (fold Fixture.test_reg) "COUNT" /\
  stored CURRENT_USER Fixture.test_path "title"
    (final os (winreg.WriteDWordValue CURRENT_USER Fixture.test_path "COUNT" 9)
       Fixture.test_reg)
  = Some (REG_SZ (Fixture.sz "winreg")).
Proof.
  split; [vm_compute; discriminate|].
  etrans.
  - apply (writer_frame KDWord CURRENT_USER Fixture.test_path "COUNT" 9
             Fixture.test_reg CURRENT_USER Fixture.test_path "title").
    vm_compute. discriminate.
  - vm_compute. reflexivity.
Defined.

Lemma value_names_store (f : string -> string) (name : string) (v : regvalue)
  (vs : values) :
  value_names (store_value f name v vs)
  = if existsb (same_name f name) (value_names vs) then value_names vs
    else value_names vs ++ [to_valid name].
Proof.
  unfold value_names.
  induction vs as [|[n v'] vs IH]; cbn; [reflexivity|].
  destruct (same_name f name n) eqn:E; cbn; [reflexivity|].
  rewrite IH. destruct (existsb (same_name f name) (map fst vs)); reflexivity.
Qed.

(** The names of a key after a typed write. *)
Lemma names_after_write (k : kind) (root : Key) (keyPath valueName : string)
  (v : carrier k) (r : reg) :
  result os (writer k root keyPath valueName v) r = nil ->
  let r' := final os (writer k root keyPath valueName v) r in
  let before := fst (result os (winreg.EnumerateValues root keyPath) r) in
  snd (result os (winreg.EnumerateValues root keyPath) r') = nil /\
  forall n : string,
    n ∈ fst (result os (winreg.EnumerateValues root keyPath) r') <->
    n ∈ before \/
    (n = to_valid valueName /\
     forall m, m ∈ before -> name_key (fold r) m <> name_key (fold r) valueName).
Proof.
  intros Hok r' before. subst r' before. rewrite result_exec in Hok.
  rewrite !result_exec, final_exec.
  destruct (writer_ok _ _ _ _ _ _ Hok) as (l & rec & d & Hl & Hk & Hn & Hd).
  rewrite (writer_exec k root keyPath valueName v r l rec d Hl Hk Hn Hd). cbn [snd].
  destruct (EnumerateValues_exec root keyPath r) as [e ->].
  match goal with
  | |- context [exec os _ ?s] =>
      destruct (EnumerateValues_exec root keyPath s) as [e' ->]
  end.
  rewrite locate_set_keys, Hl, Hk. cbn [keys set_keys]. rewrite lookup_insert_eq.
  cbn [fst snd set_values k_values]. split; [reflexivity|].
  intros n. rewrite value_names_store.
  destruct (existsb (same_name (fold r) valueName) (value_names (k_values rec))) eqn:B.
  - split; [tauto|]. intros [Hin|[_ Hnone]]; [exact Hin|].
    apply existsb_exists in B as (m & Hm & Hsame).
    exfalso. apply (Hnone m); [apply list_elem_of_In, Hm|].
    apply same_name_true in Hsame. congruence.
  - rewrite elem_of_app, list_elem_of_singleton. split.
    + intros [Hin | ->]; [tauto|]. right. split; [reflexivity|].
      intros m Hm Heq.
      assert (existsb (same_name (fold r) valueName) (value_names (k_values rec)) = true)
        as Habs; [|congruence].
      apply existsb_exists. exists m. split; [apply list_elem_of_In, Hm|].
      apply same_name_true. congruence.
    + intros [Hin|[-> _]]; tauto.
Qed.

(** X10.  On the in-memory registry, after a typed write under a name
    that is valid UTF-8 and that reports no error, [EnumerateValues]
    returns a nil error and the names it returned before the write; the
    written name is added to them exactly when the registry identified
    none of them with it.  A name already there keeps its spelling. *)
Theorem write_then_enumerate (k : kind) (root : Key) (keyPath valueName : string)
  (v : carrier k) (r : reg) :
  unchanged valueName ->
  result os (writer k root keyPath valueName v) r = nil ->
  let r' := final os (writer k root keyPath valueName v) r in
  let before := fst (result os (winreg.EnumerateValues root keyPath) r) in
  snd (result os (winreg.EnumerateValues root keyPath) r') = nil /\
  forall n : string,
    n ∈ fst (result os (winreg.EnumerateValues root keyPath) r') <->
    n ∈ before \/
    (n = valueName /\
     forall m, m ∈ before -> name_key (fold r) m <> name_key (fold r) valueName).
Proof.
  intros Hvalid Hok. pose proof (names_after_write k root keyPath valueName v r Hok) as H.
  cbv zeta in *. rewrite Hvalid in H. exact H.
Qed.

Lemma write_then_enumerate_example :
  result os (winreg.WriteBinaryValue CURRENT_USER Fixture.test_path "TITLE" [x01; xff])
    Fixture.test_reg = nil /\
  fst (result os (winreg.EnumerateValues CURRENT_USER Fixture.test_path)
         (final os (winreg.WriteBinaryValue CURRENT_USER Fixture.test_path "TITLE"
                      [x01; xff]) Fixture.test_reg)) = ["count"; "title"]%string /\
  snd (result os (winreg.EnumerateValues CURRENT_USER Fixture.test_path)
         (final os (winreg.WriteBinaryValue CURRENT_USER Fixture.test_path "TITLE"
                      [x01; xff]) Fixture.test_reg)) = nil.
Proof.
  split; [vm_compute; reflexivity|]. split; [vm_compute; reflexivity|].
  apply (write_then_enumerate KBinary CURRENT_USER Fixture.test_path "TITLE"
           [x01; xff] Fixture.test_reg).
  - reflexivity.
  - vm_compute. reflexivity.
Defined.

(** X12.  On the in-memory registry, [DeleteValue] changes no value but
    the one it names: a value under a name that the registry does not
    identify with the deleted one reads as before in every key, whether
    the deletion succeeded or not. *)
Theorem DeleteValue_frame (root : Key) (keyPath valueName : string) (r : reg)
  (root' : Key) (keyPath' valueName' : string) :
  name_key (fold r) valueName' <> name_key (fold r) valueName ->
  stored root' keyPath' valueName' (final os (winreg.DeleteValue root keyPath valueName) r)
  = stored root' keyPath' valueName' r.
Proof.
  intros Hother. rewrite final_exec.
  destruct (fst (exec os (winreg.DeleteValue root keyPath valueName) r)) as [e|] eqn:Hr.
  - destruct (stored root keyPath valueName r) as [d|] eqn:Hst.
    + exfalso. apply stored_Some in Hst as (Hn & l & rec & Hl & Hk & Hv).
      destruct (open_key_found root keyPath WRITE r l rec Hl Hk) as (key & hs & Ho & Hs).
      revert Hr. enter Ho. unfold delete_value. rewrite Hn. in_session Hs.
      rewrite Hk, Hv. in_session Hs. discriminate.
    + destruct (DeleteValue_absent root keyPath valueName r Hst) as [e' ->].
      reflexivity.
  - destruct (DeleteValue_exec root keyPath valueName r Hr)
      as (l & rec & Hl & Hk & Hn & ->).
    apply stored_update; [exact Hk|]. intros _. apply lookup_remove_other, Hother.
Qed.

Lemma DeleteValue_frame_example :
  name_key (fold Fixture.test_reg) "count" <> name_key (fold Fixture.test_reg) "Title" /\
  stored CURRENT_USER Fixture.test_path "count"
    (final os (winreg.DeleteValue CURRENT_USER Fixture.test_path "Title")
       Fixture.test_reg)
  = Some (REG_DWORD 7).
Proof.
  split; [vm_compute; discriminate|].
  etrans.
  - apply (DeleteValue_frame CURRENT_USER Fixture.test_path "Title"
             Fixture.test_reg CURRENT_USER Fixture.test_path "count").
    vm_compute. discriminate.
  - vm_compute. reflexivity.
Defined.




(** X15.  On the in-memory registry, where [GetDWordValue], [GetQWordValue],
    [GetExpandStringValue], [GetIntValue] and [SetIntValue] are read as
    typed accessors of the stored data, the round trip holds for each of
    DWORD, QWORD, binary, multi-string, expandable string and int32,
    strings being valid UTF-8, and through any root and path that lead to
    the same key, a path that differs by case included: what a writer
    stored under one way to the key, the matching reader returns under
    another. *)
Theorem typed_round_trip_through_alias (k : kind) (root : Key)
  (keyPath valueName : string) (v : carrier k) (r : reg)
  (root' : Key) (keyPath' : string) :
  k <> KInt64 ->
  in_range k v ->
  locate root' keyPath' r = locate root keyPath r ->
  result os (writer k root keyPath valueName v) r = nil ->
  result os (reader k root' keyPath' valueName)
    (final os (writer k root keyPath valueName v) r) = (v, nil).
Proof. apply round_trip_via. Qed.

Lemma typed_round_trip_through_alias_example :
  locate CURRENT_USER "SOFTWARE\GoWinReg\test" Fixture.test_reg
  = locate CURRENT_USER Fixture.test_path Fixture.test_reg /\
  result os (winreg.ReadQWordValue CURRENT_USER "SOFTWARE\GoWinReg\test" "big")
    (final os (winreg.WriteQWordValue CURRENT_USER Fixture.test_path "big"
                 123456789012) Fixture.test_reg)
  = (123456789012, nil).
Proof.
  split; [vm_compute; reflexivity|].
  apply (typed_round_trip_through_alias KQWord CURRENT_USER Fixture.test_path
           "big" 123456789012 Fixture.test_reg CURRENT_USER
           "SOFTWARE\GoWinReg\test").
  - discriminate.
  - cbn. unfold is_uint64. lia.
  - vm_compute. reflexivity.
  - vm_compute. reflexivity.
Defined.

(** X16.  On the in-memory registry, the key [CreateKey] returns stands
    for the key of its root and path: when [CreateKey] reports no error, a
    value that a typed writer stores through the returned key and the empty
    path is read back through the original root and path, and a value
    stored through the original root and path is read back through the
    returned key.  This is for DWORD, QWORD, binary, multi-string,
    expandable string and int32 data, strings being valid UTF-8, with the
    accessors that the library lacks read as typed accessors. *)
Theorem CreateKey_then_use (root : Key) (keyPath : string) (r : reg)
  (k : kind) (valueName : string) (v : carrier k) :
  k <> KInt64 ->
  in_range k v ->
  snd (result os (winreg.CreateKey root keyPath) r) = nil ->
  let key := fst (result os (winreg.CreateKey root keyPath) r) in
  let r1 := final os (winreg.CreateKey root keyPath) r in
  (result os (writer k key "" valueName v) r1 = nil ->
   result os (reader k root keyPath valueName)
     (final os (writer k key "" valueName v) r1) = (v, nil)) /\
  (result os (writer k root keyPath valueName v) r1 = nil ->
   result os (reader k key "" valueName)
     (final os (writer k root keyPath valueName v) r1) = (v, nil)).
Proof.
  intros Hk Hv Hok key r1. subst key r1. rewrite result_exec in Hok.
  rewrite (result_exec os (winreg.CreateKey root keyPath)), final_exec.
  destruct (CreateKey_exec root keyPath r Hok) as (h & Hn & Hres & -> & -> & Hroot).
  set (r1 := set_keys _ _).
  assert (locate (alloc r) "" r1 = locate root keyPath r1) as Hloc.
  { unfold locate. rewrite Hn. cbn [has_nul].
    erewrite (resolve_more root r r1); [|exact Hres|reflexivity].
    unfold resolve. cbn [handles r1 set_keys opened_reg set_handles].
    rewrite lookup_insert_eq. cbn [h_loc fold set_keys opened_reg set_handles].
    unfold below at 1. cbn. rewrite app_nil_r. reflexivity. }
  split; intros Hw; apply round_trip_via; auto.
Qed.

Lemma CreateKey_then_use_example :
  snd (result os (winreg.CreateKey CURRENT_USER Fixture.test_path) Fixture.boot) = nil /\
  result os (winreg.ReadBinaryValue CURRENT_USER Fixture.test_path "blob")
    (final os
       (winreg.WriteBinaryValue
          (fst (result os (winreg.CreateKey CURRENT_USER Fixture.test_path) Fixture.boot))
          "" "blob" [x01; xff])
       (final os (winreg.CreateKey CURRENT_USER Fixture.test_path) Fixture.boot))
  = ([x01; xff], nil).
Proof.
  split; [vm_compute; reflexivity|].
  apply (CreateKey_then_use CURRENT_USER Fixture.test_path Fixture.boot
           KBinary "blob" [x01; xff]).
  - discriminate.
  - exact I.
  - vm_compute. reflexivity.
  - vm_compute. reflexivity.
Defined.

Lemma make_keys_prefix (f : string -> string) (root : Z)
  (comps base pre suf : list string) (ks : gmap loc keyrec) :
  is_Some (ks !! (root, base)) ->
  comps = pre ++ suf ->
  is_Some (make_keys f root base comps ks !! (root, base ++ map (name_key f) pre)).
Proof.
  revert base pre ks. induction comps as [|c cs IH]; intros base pre ks Hb Hc.
  - symmetry in Hc. apply app_eq_nil in Hc as [-> ->]. cbn. rewrite app_nil_r. exact Hb.
  - destruct pre as [|p pre].
    + cbn [map]. rewrite app_nil_r. destruct Hb as [x Hx].
      destruct (make_keys_lookup f root (c :: cs) base ks (root, base)) as [H|(Hn & _)].
      * exists x. etrans; [exact H|exact Hx].
      * pose proof (eq_trans (eq_sym Hn) Hx) as Habs. discriminate.
    + cbn in Hc. injection Hc as <- ->. cbn [make_keys map].
      rewrite cons_middle, app_assoc. apply IH; [|reflexivity].
      destruct (ks !! (root, base ++ [name_key f c])) eqn:E; [eauto|].
      rewrite lookup_insert_eq. eauto.
Qed.

(** The keys [CreateKey] makes on the way are listed. *)
Lemma subkey_listed_after_CreateKey (root : Key) (keyPath c rest : string) (r : reg) :
  components c = [c] ->
  (forall l, locate root (keyPath +:+ "\" +:+ c) r = Some l -> keys r !! l = None) ->
  snd (result os (winreg.CreateKey root (keyPath +:+ "\" +:+ c +:+ "\" +:+ rest)) r)
  = nil ->
  let r' := final os (winreg.CreateKey root (keyPath +:+ "\" +:+ c +:+ "\" +:+ rest)) r in
  snd (result os (winreg.EnumerateSubKeys root keyPath) r') = nil /\
  to_valid c ∈ fst (result os (winreg.EnumerateSubKeys root keyPath) r').
Proof.
  intros Hc Hnew Hok r'. subst r'. rewrite result_exec in Hok.
  rewrite !result_exec, final_exec.
  destruct (CreateKey_exec root _ r Hok) as (h & Hn & Hres & _ & -> & Hroot).
  set (r' := set_keys _ _).
  destruct (EnumerateSubKeys_exec root keyPath r') as [e' ->].
  rewrite !has_nul_app in Hn. apply orb_false_elim in Hn as [Hn1 Hn2].
  apply orb_false_elim in Hn2 as [_ Hn2]. apply orb_false_elim in Hn2 as [Hn2 _].
  assert (locate root keyPath r = Some (below (fold r) (h_loc h) keyPath)) as Hl.
  { apply locate_Some. eauto. }
  rewrite (locate_more root keyPath r r' _ _ Hl eq_refl eq_refl).
  specialize (Hnew _ (locate_join_Some root keyPath c r _ Hl Hn2)).
  subst r'. cbn [keys set_keys fold opened_reg set_handles].
  destruct (h_loc h) as [a p] eqn:Hloc. cbn [fst snd] in *.
  rewrite !components_join, Hc.
  set (comps := components keyPath ++ [c] ++ components rest).
  set (ks' := make_keys (fold r) a p comps (keys r)).
  assert (is_Some (ks' !! below (fold r) (a, p) keyPath)) as [rec1 ->].
  { unfold below. cbn [fst snd]. apply (make_keys_prefix _ _ _ _ _ ([c] ++ components rest));
      [exact Hroot|reflexivity]. }
  cbn [fst snd]. split; [reflexivity|].
  apply elem_of_subkey_names. rewrite name_key_valid.
  unfold below in *. cbn [fst snd] in *. rewrite Hc in Hnew. cbn [map] in Hnew.
  assert (is_Some (ks' !! (a, (p ++ map (name_key (fold r)) (components keyPath))
                              ++ [name_key (fold r) c]))) as [x Hx].
  { rewrite <- app_assoc.
    change (map (name_key (fold r)) (components keyPath) ++ [name_key (fold r) c])
      with (map (name_key (fold r)) (components keyPath) ++ map (name_key (fold r)) [c]).
    rewrite <- map_app.
    apply (make_keys_prefix _ _ _ _ _ (components rest)); [exact Hroot|].
    subst comps. rewrite <- app_assoc. reflexivity. }
  destruct (make_keys_lookup (fold r) a comps p (keys r)
              (a, (p ++ map (name_key (fold r)) (components keyPath))
                  ++ [name_key (fold r) c]))
    as [H|(_ & pre & c' & suf & Hcomps & Hlocn & Hs)]; fold ks' in H || fold ks' in Hs.
  - pose proof (eq_trans (eq_sym Hx) (eq_trans H Hnew)) as Habs. discriminate.
  - assert (pre = components keyPath /\ c' = c) as [-> ->].
    { injection Hlocn as Hlocn. rewrite <- app_assoc in Hlocn.
      apply app_inv_head in Hlocn.
      assert (length pre = length (components keyPath)) as Hlen.
      { apply (f_equal length) in Hlocn. rewrite !length_app, !length_map in Hlocn.
        rewrite length_app in Hlocn. cbn in Hlocn. lia. }
      subst comps. apply app_inj_1 in Hcomps as [Hpre Hrest]; [|symmetry; exact Hlen].
      injection Hrest as -> _. auto. }
    eexists. split; [exact Hs|reflexivity].
Qed.

(** X17.  On the in-memory registry, when [CreateKey] reports no error on
    a path made of [keyPath], a single name that is valid UTF-8 and the
    rest of the path, and no key was there under [keyPath] and that name,
    [EnumerateSubKeys] on [keyPath] returns a nil error and a list that
    holds the name: the keys on the way are created and listed under the
    spelling of the path. *)
Theorem created_subkey_is_listed (root : Key) (keyPath c rest : string) (r : reg) :
  components c = [c] ->
  unchanged c ->
  (forall l, locate root (keyPath +:+ "\" +:+ c) r = Some l -> keys r !! l = None) ->
  snd (result os (winreg.CreateKey root (keyPath +:+ "\" +:+ c +:+ "\" +:+ rest)) r)
  = nil ->
  let r' := final os (winreg.CreateKey root (keyPath +:+ "\" +:+ c +:+ "\" +:+ rest)) r in
  snd (result os (winreg.EnumerateSubKeys root keyPath) r') = nil /\
  c ∈ fst (result os (winreg.EnumerateSubKeys root keyPath) r').
Proof.
  intros Hc Hvalid Hnew Hok.
  pose proof (subkey_listed_after_CreateKey root keyPath c rest r Hc Hnew Hok) as H.
  cbv zeta in *. rewrite Hvalid in H. exact H.
Qed.

Lemma created_subkey_is_listed_example :
  let p := ("Software" +:+ "\" +:+ "gowinreg" +:+ "\" +:+ "Test")%string in
  components "gowinreg" = ["gowinreg"]%string /\
  snd (result os (winreg.CreateKey CURRENT_USER p) Fixture.boot) = nil /\
  "gowinreg"%string ∈
    fst (result os (winreg.EnumerateSubKeys CURRENT_USER "Software")
           (final os (winreg.CreateKey CURRENT_USER p) Fixture.boot)).
Proof.
  cbv zeta. split; [reflexivity|]. split; [vm_compute; reflexivity|].
  apply (created_subkey_is_listed CURRENT_USER "Software" "gowinreg" "Test" Fixture.boot).
  - reflexivity.
  - reflexivity.
  - intros l Hl. vm_compute in Hl. injection Hl as <-. vm_compute. reflexivity.
  - vm_compute. reflexivity.
Defined.

(** The names of the subkeys after [CreateKey] made one more. *)
Lemma subkeys_after_CreateKey (root : Key) (keyPath child : string)
  (r : reg) (c : string) :
  components child = [c] ->
  snd (result os (winreg.EnumerateSubKeys root keyPath) r) = nil ->
  (forall l, locate root (keyPath +:+ "\" +:+ child) r = Some l -> keys r !! l = None) ->
  snd (result os (winreg.CreateKey root (keyPath +:+ "\" +:+ child)) r) = nil ->
  let r' := final os (winreg.CreateKey root (keyPath +:+ "\" +:+ child)) r in
  forall n : string,
    n ∈ fst (result os (winreg.EnumerateSubKeys root keyPath) r') <->
    n = to_valid c \/ n ∈ fst (result os (winreg.EnumerateSubKeys root keyPath) r).
Proof.
  intros Hc Hbefore Hnew Hok r' n. subst r'. rewrite result_exec in Hok.
  rewrite result_exec in Hbefore. rewrite !result_exec, final_exec.
  destruct (CreateKey_exec root _ r Hok) as (h & Hn & Hres & _ & -> & Hroot).
  set (r' := set_keys _ _).
  destruct (EnumerateSubKeys_exec root keyPath r) as [e He].
  rewrite He in Hbefore |- *. clear He.
  destruct (EnumerateSubKeys_exec root keyPath r') as [e' ->].
  rewrite !has_nul_app in Hn. apply orb_false_elim in Hn as [Hn1 Hn2].
  apply orb_false_elim in Hn2 as [_ Hn2].
  assert (locate root keyPath r = Some (below (fold r) (h_loc h) keyPath)) as Hl.
  { apply locate_Some. eauto. }
  rewrite Hl in Hbefore |- *.
  rewrite (locate_more root keyPath r r' _ _ Hl eq_refl eq_refl).
  specialize (Hnew _ (locate_join_Some root keyPath child r _ Hl Hn2)).
  destruct (keys r !! below (fold r) (h_loc h) keyPath) as [rec0|] eqn:Hparent;
    [|discriminate].
  subst r'. cbn [keys set_keys fold opened_reg set_handles].
  destruct (h_loc h) as [a p] eqn:Hloc. cbn [fst snd] in *.
  rewrite components_join, Hc in *.
  set (ks' := make_keys (fold r) a p (components keyPath ++ [c]) (keys r)).
  assert (is_Some (ks' !! (a, p ++ map (name_key (fold r)) (components keyPath ++ [c]))))
    as Hchild by (apply make_keys_present; exact Hroot).
  assert (is_Some (ks' !! below (fold r) (a, p) keyPath)) as [rec1 ->].
  { destruct (make_keys_lookup (fold r) a (components keyPath ++ [c]) p (keys r)
                (below (fold r) (a, p) keyPath)) as [H|(H & _)].
    - exists rec0. etrans; [exact H|exact Hparent].
    - pose proof (eq_trans (eq_sym H) Hparent) as Habs. discriminate. }
  cbn [fst]. rewrite !elem_of_subkey_names. unfold below in *. cbn [fst snd] in *.
  rewrite map_app, app_assoc in Hchild. cbn [map] in Hchild.
  rewrite Hc in Hnew. cbn [map] in Hnew.
  destruct (make_keys_lookup (fold r) a (components keyPath ++ [c]) p (keys r)
              (a, (p ++ map (name_key (fold r)) (components keyPath))
                  ++ [name_key (fold r) n]))
    as [H|(Hnone & pre & c' & suf & Hcomps & Hlocn & Hs)]; fold ks' in H || fold ks' in Hs.
  - split.
    + intros (rec & Hrec & Hname). right. exists rec. split; [|exact Hname].
      etrans; [symmetry; exact H|exact Hrec].
    + intros [->|(rec & Hrec & Hname)].
      * exfalso. rewrite name_key_valid in H. destruct Hchild as [x Hx].
        pose proof (eq_trans (eq_sym Hx) (eq_trans H Hnew)) as Habs. discriminate.
      * exists rec. split; [|exact Hname]. etrans; [exact H|exact Hrec].
  - assert (pre = components keyPath /\ c' = c) as [-> ->].
    { injection Hlocn as Hlocn. rewrite <- app_assoc in Hlocn.
      apply app_inv_head in Hlocn.
      assert (length pre = length (components keyPath)) as Hlen.
      { apply (f_equal length) in Hlocn. rewrite !length_app, !length_map in Hlocn.
        rewrite length_app in Hlocn. cbn in Hlocn. lia. }
      apply app_inj_1 in Hcomps as [Hpre Hrest]; [|symmetry; exact Hlen].
      injection Hrest as -> _. auto. }
    split.
    + intros (rec & Hrec & Hname). left.
      pose proof (eq_trans (eq_sym Hrec) Hs) as Heq. injection Heq as ->.
      symmetry. exact Hname.
    + intros [->|(rec & Hrec & _)].
      * eexists. split; [exact Hs|reflexivity].
      * pose proof (eq_trans (eq_sym Hrec) Hnone) as Habs. discriminate.
Qed.

(** X19.  On the in-memory registry, when [EnumerateSubKeys] on [keyPath]
    reports no error, no key is there under [keyPath], a backslash and a
    single name that is valid UTF-8, and [CreateKey] then reports no error
    on that path, the names [EnumerateSubKeys] returns afterwards are that
    name and the names it returned before, and no other. *)
Theorem CreateKey_adds_exactly_one_subkey (root : Key) (keyPath child : string)
  (r : reg) (c : string) :
  components child = [c] ->
  unchanged c ->
  snd (result os (winreg.EnumerateSubKeys root keyPath) r) = nil ->
  (forall l, locate root (keyPath +:+ "\" +:+ child) r = Some l -> keys r !! l = None) ->
  snd (result os (winreg.CreateKey root (keyPath +:+ "\" +:+ child)) r) = nil ->
  let r' := final os (winreg.CreateKey root (keyPath +:+ "\" +:+ child)) r in
  forall n : string,
    n ∈ fst (result os (winreg.EnumerateSubKeys root keyPath) r') <->
    n = c \/ n ∈ fst (result os (winreg.EnumerateSubKeys root keyPath) r).
Proof.
  intros Hc Hvalid Hbefore Hnew Hok.
  pose proof (subkeys_after_CreateKey root keyPath child r c Hc Hbefore Hnew Hok) as H.
  cbv zeta in *. rewrite Hvalid in H. exact H.
Qed.

Lemma CreateKey_adds_exactly_one_subkey_example :
  let before := fst (result os (winreg.EnumerateSubKeys CURRENT_USER "Software\gowinreg")
                       Fixture.test_reg) in
  let after := fst (result os (winreg.EnumerateSubKeys CURRENT_USER "Software\gowinreg")
                      (final os (winreg.CreateKey CURRENT_USER
                                   ("Software\gowinreg" +:+ "\" +:+ "Other"))
                         Fixture.test_reg)) in
  components "Other" = ["Other"%string] /\
  before = ["Test"%string] /\
  "Other"%string ∈ after.
Proof.
  cbv zeta. split; [reflexivity|]. split; [vm_compute; reflexivity|].
  apply (CreateKey_adds_exactly_one_subkey CURRENT_USER "Software\gowinreg" "Other"
           Fixture.test_reg "Other").
  - reflexivity.
  - reflexivity.
  - vm_compute. reflexivity.
  - intros l Hl. vm_compute in Hl. injection Hl as <-. vm_compute. reflexivity.
  - vm_compute. reflexivity.
  - left. reflexivity.
Defined.
